(** * Knowledge-graph generator: the graph builder and the request pipeline

    A shallow embedding of [src/app.py].

    - [Dict] models a Python [dict] with [str] keys: an association list
      with unique keys kept in insertion order, which is the order
      [G.nodes()] and [G.edges()] expose.
    - [Graph] models [networkx.Graph] by its two dictionaries, [_node]
      (node -> attributes) and [_adj] (node -> neighbour -> attributes),
      with [add_node], [add_edge], [degree] and the edge view written as
      the library executes them.
    - [create_networkx_graph] is the function of lines 88-142, over an
      extraction result whose two fields, and whose per-relationship keys,
      may be absent ([data.get], [rel.get]); the values that are present
      are strings and lists, as the data model has them.
    - [main] is the run of one request: the calls it makes and what it
      shows, in order.
    - [greedy_modularity_communities], the language-model call, [json.loads]
      and the PyVis renderer are outside the repository: they are section
      variables.  A raised exception is [None] or [inl msg]. *)

From Stdlib Require Import String Ascii List Bool Arith PeanoNat Lia Permutation.
Import ListNotations.
Open Scope string_scope.
Open Scope list_scope.

(** ** Python dictionaries with string keys *)

Module Dict.

Definition t (V : Type) : Type := list (string * V).

Section Ops.
Context {V : Type}.

(** [d.get(k)] *)
Fixpoint get (k : string) (d : t V) : option V :=
  match d with
  | [] => None
  | (k', v) :: d' => if String.eqb k k' then Some v else get k d'
  end.

(** [k in d] *)
Definition contains (k : string) (d : t V) : bool :=
  match get k d with Some _ => true | None => false end.

(** [d[k] = v]: an existing key keeps its position, a new one goes last. *)
Fixpoint set (k : string) (v : V) (d : t V) : t V :=
  match d with
  | [] => [(k, v)]
  | (k', v') :: d' =>
      if String.eqb k k' then (k', v) :: d' else (k', v') :: set k v d'
  end.

Definition keys (d : t V) : list string := map fst d.

End Ops.

End Dict.

(** ** The data model *)

(** One element of ["relationships"]; each key may be absent. *)
Record Relationship : Type := mkRel {
  source : option string;
  target : option string;
  relationship : option string
}.

(** The parsed model output; each of the two fields may be absent. *)
Record ExtractionResult : Type := mkData {
  concepts : option (list string);
  relationships : option (list Relationship)
}.

(** The [font] dictionary of line 133. *)
Record Font : Type := mkFont {
  font_color : string;
  font_size : nat;
  font_face : string;
  font_background : string;
  font_strokeWidth : nat;
  font_strokeColor : string
}.

(** Attribute dictionary of a node: the keys the program ever writes. *)
Record NodeAttr : Type := mkNodeAttr {
  n_title : option string;
  n_size : option nat;
  n_color : option string;
  n_font : option Font
}.

(** Attribute dictionary of an edge. *)
Record EdgeAttr : Type := mkEdgeAttr {
  e_title : option string;
  e_label : option string
}.

Definition empty_node_attr : NodeAttr := mkNodeAttr None None None None.
Definition empty_edge_attr : EdgeAttr := mkEdgeAttr None None.

(** ** networkx.Graph *)

Record Graph : Type := mkGraph {
  g_node : Dict.t NodeAttr;
  g_adj : Dict.t (Dict.t EdgeAttr)
}.

(** [nx.Graph()] *)
Definition empty_graph : Graph := mkGraph [] [].

(** [G._adj[n]]; every node has an entry (see [wf_graph]). *)
Definition adj_of (adj : Dict.t (Dict.t EdgeAttr)) (n : string) : Dict.t EdgeAttr :=
  match Dict.get n adj with Some nbrs => nbrs | None => [] end.

(** [attr_dict.update(attr)]: the keys of [new] overwrite those of [old]. *)
Definition or_else {A : Type} (new old : option A) : option A :=
  match new with Some _ => new | None => old end.

Definition node_update (old new : NodeAttr) : NodeAttr :=
  mkNodeAttr (or_else (n_title new) (n_title old))
             (or_else (n_size new) (n_size old))
             (or_else (n_color new) (n_color old))
             (or_else (n_font new) (n_font old)).

Definition edge_update (old new : EdgeAttr) : EdgeAttr :=
  mkEdgeAttr (or_else (e_title new) (e_title old))
             (or_else (e_label new) (e_label old)).

(** [G.add_node(n, title=t)] *)
Definition add_node (G : Graph) (n : string) (t : string) : Graph :=
  let attr := mkNodeAttr (Some t) None None None in
  match Dict.get n (g_node G) with
  | None =>
      mkGraph (Dict.set n (node_update empty_node_attr attr) (g_node G))
              (Dict.set n [] (g_adj G))
  | Some a =>
      mkGraph (Dict.set n (node_update a attr) (g_node G)) (g_adj G)
  end.

(** The first half of [add_edge]: an endpoint that is not a node yet is
    created with empty attributes. *)
Definition ensure_node (G : Graph) (n : string) : Graph :=
  if Dict.contains n (g_node G) then G
  else mkGraph (Dict.set n empty_node_attr (g_node G)) (Dict.set n [] (g_adj G)).

(** [G.add_edge(u, v, title=r, label=r)].  The attribute dictionary of an
    existing edge is fetched and updated, then stored under both
    directions; both directions always hold the same dictionary, so a
    copy per direction is the same as the shared object. *)
Definition add_edge (G : Graph) (u v : string) (r : string) : Graph :=
  let G1 := ensure_node (ensure_node G u) v in
  let adj := g_adj G1 in
  let datadict :=
    edge_update
      (match Dict.get v (adj_of adj u) with Some dd => dd | None => empty_edge_attr end)
      (mkEdgeAttr (Some r) (Some r)) in
  let adj1 := Dict.set u (Dict.set v datadict (adj_of adj u)) adj in
  let adj2 := Dict.set v (Dict.set u datadict (adj_of adj1 v)) adj1 in
  mkGraph (g_node G1) adj2.

(** [G.nodes()] *)
Definition nodes (G : Graph) : list string := Dict.keys (g_node G).

(** One entry of [G.degree()]: [len(nbrs) + (n in nbrs)]. *)
Definition degree_of (n : string) (nbrs : Dict.t EdgeAttr) : nat :=
  length nbrs + (if Dict.contains n nbrs then 1 else 0).

Definition degree (G : Graph) (n : string) : nat :=
  degree_of n (adj_of (g_adj G) n).

(** [dict(G.degree())] *)
Definition degrees (G : Graph) : Dict.t nat :=
  map (fun n => (n, degree G n)) (nodes G).

(** [nbr not in seen] *)
Definition unseen (seen : list string) : string * EdgeAttr -> bool :=
  fun '(nbr, _) => negb (existsb (String.eqb nbr) seen).

(** [G.edges(data=True)]: every adjacency entry whose neighbour has not
    been visited as a node yet, so each undirected edge is reported once. *)
Fixpoint edges_from (seen : list string) (adj : Dict.t (Dict.t EdgeAttr))
  : list (string * string * EdgeAttr) :=
  match adj with
  | [] => []
  | (n, nbrs) :: adj' =>
      map (fun '(nbr, dd) => (n, nbr, dd)) (filter (unseen seen) nbrs)
      ++ edges_from (n :: seen) adj'
  end.

Definition edges (G : Graph) : list (string * string * EdgeAttr) :=
  edges_from [] (g_adj G).

(** [G.has_edge(u, v)] *)
Definition has_edge (G : Graph) (u v : string) : bool :=
  Dict.contains v (adj_of (g_adj G) u).

(** [G.edges[u, v]] *)
Definition edge_data (G : Graph) (u v : string) : option EdgeAttr :=
  Dict.get v (adj_of (g_adj G) u).

(** [len(G.nodes())] *)
Definition number_of_nodes (G : Graph) : nat := length (g_node G).

(** [len(G.edges())]: the library computes it as half the degree sum. *)
Definition sum_degrees (adj : Dict.t (Dict.t EdgeAttr)) : nat :=
  list_sum (map (fun '(n, nbrs) => degree_of n nbrs) adj).

Definition number_of_edges (G : Graph) : nat := sum_degrees (g_adj G) / 2.

(** ** Graph construction, lines 92-104 *)

(** Python truthiness of a string: only the empty string is false. *)
Definition truthy (s : string) : bool := negb (String.eqb s "").

(** [rel.get("relationship", "")] *)
Definition get_label (rel : Relationship) : string :=
  match relationship rel with Some l => l | None => "" end.

(** The body of the loop of lines 99-104.  [rel.get("source")] of an
    absent key is [None], which is false in [if source and target]. *)
Definition add_relationship (G : Graph) (rel : Relationship) : Graph :=
  let r := get_label rel in
  match source rel, target rel with
  | Some s, Some t => if truthy s && truthy t then add_edge G s t r else G
  | _, _ => G
  end.

Definition get_concepts (data : ExtractionResult) : list string :=
  match concepts data with Some cs => cs | None => [] end.

Definition get_relationships (data : ExtractionResult) : list Relationship :=
  match relationships data with Some rs => rs | None => [] end.

(** The graph after the two loops (line 104). *)
Definition build_structure (data : ExtractionResult) : Graph :=
  let G := fold_left (fun G c => add_node G c c) (get_concepts data) empty_graph in
  fold_left add_relationship (get_relationships data) G.

(** ** Visual attributes, lines 106-142 *)

Definition colors : list string :=
  ["#FF5733"; "#33FF57"; "#3357FF"; "#F333FF"; "#33FFF5"; "#FFFF33"].

Definition default_color : string := "#97c2fc".

Definition node_font : Font :=
  mkFont "white" 16 "Verdana" "rgba(0,0,0,0.7)" 2 "#000000".

(** Lines 118-121: [for i, comm in enumerate(communities)], counting from [i]. *)
Fixpoint color_communities (i : nat) (communities : list (list string))
    (node_colors : Dict.t string) : Dict.t string :=
  match communities with
  | [] => node_colors
  | comm :: rest =>
      let color := nth (i mod length colors) colors "" in
      color_communities (S i) rest
        (fold_left (fun nc node => Dict.set node color nc) comm node_colors)
  end.

(** Lines 127-140: the body of the last loop.  [degrees[node]] and
    [G.nodes[node]] exist for every node of the loop. *)
Definition apply_attributes (degrees : Dict.t nat) (node_colors : Dict.t string)
    (node_attrs : Dict.t NodeAttr) (node : string) : Dict.t NodeAttr :=
  let size := 20 + (match Dict.get node degrees with Some d => d | None => 0 end) * 5 in
  let color := match Dict.get node node_colors with Some c => c | None => default_color end in
  let a := match Dict.get node node_attrs with Some a => a | None => empty_node_attr end in
  Dict.set node (node_update a (mkNodeAttr None (Some size) (Some color) (Some node_font)))
    node_attrs.

(** ** The request pipeline, lines 47-85 and 209-242 *)

(** What a run shows or sends, in order. *)
Inductive Event : Type :=
| ApiCall (api_key model system_msg user_msg : string) (temperature : nat)
    (response_format : string)                    (* [client.chat.completions.create] *)
| StError (msg : string)                          (* [st.error] *)
| StWarning (msg : string)                        (* [st.warning] *)
| StSpinner (text : string)                       (* [with st.spinner] *)
| StMetric (label : string) (value : nat)         (* [col.metric] *)
| StSubheader (text : string)                     (* [st.subheader] *)
| ComponentsHtml (html : string) (height : nat).  (* [components.html] *)

(** How a computation ends: with a value, with a raised exception (its
    [str(e)]), or by [st.stop()]. *)
Inductive Outcome (A : Type) : Type :=
| Ret (a : A)
| Raise (e : string)
| Stop.
Arguments Ret {A} a.
Arguments Raise {A} e.
Arguments Stop {A}.

(** A computation: the events it emitted and how it ended. *)
Definition M (A : Type) : Type := list Event * Outcome A.

Definition ret {A : Type} (a : A) : M A := ([], Ret a).

Definition bind {A B : Type} (m : M A) (f : A -> M B) : M B :=
  match m with
  | (w, Ret a) => let '(w', o) := f a in (w ++ w', o)
  | (w, Raise e) => (w, Raise e)
  | (w, Stop) => (w, Stop)
  end.

Definition emit (e : Event) : M unit := ([e], Ret tt).

Definition raise {A : Type} (e : string) : M A := ([], Raise e).

(** [try: body except Exception as e: handler(e)] *)
Definition try_except {A : Type} (body : M A) (handler : string -> M A) : M A :=
  match body with
  | (w, Raise e) => let '(w', o) := handler e in (w ++ w', o)
  | other => other
  end.

Declare Scope app_scope.
Delimit Scope app_scope with app.
Notation "x <- m ;; k" := (bind m (fun x => k))
  (at level 100, m at next level, right associativity) : app_scope.
Notation "m ;; k" := (bind m (fun _ => k))
  (at level 100, right associativity) : app_scope.

(** The ASCII characters that [str.strip()] removes: U+0009 to U+000D
    and U+001C to U+0020. *)
Definition is_space (c : ascii) : bool :=
  let n := nat_of_ascii c in
  (Nat.leb 9 n && Nat.leb n 13) || (Nat.leb 28 n && Nat.leb n 32).

Definition is_byte (c : ascii) (n : nat) : bool := Nat.eqb (nat_of_ascii c) n.

(** Strings are UTF-8 bytes.  The other characters that [str.strip()]
    removes take two bytes, U+0085 and U+00A0 (C2 85, C2 A0), *)
Definition is_space2 (c1 c2 : ascii) : bool :=
  is_byte c1 194 && (is_byte c2 133 || is_byte c2 160).

(** or three: U+1680 (E1 9A 80), U+2000 to U+200A, U+2028, U+2029 and
    U+202F (E2 80 80 to 8A, A8, A9, AF), U+205F (E2 81 9F) and U+3000
    (E3 80 80). *)
Definition is_space3 (c1 c2 c3 : ascii) : bool :=
  let n3 := nat_of_ascii c3 in
  (is_byte c1 225 && is_byte c2 154 && is_byte c3 128)
  || (is_byte c1 226 && is_byte c2 128
      && ((Nat.leb 128 n3 && Nat.leb n3 138)
          || Nat.eqb n3 168 || Nat.eqb n3 169 || Nat.eqb n3 175))
  || (is_byte c1 226 && is_byte c2 129 && is_byte c3 159)
  || (is_byte c1 227 && is_byte c2 128 && is_byte c3 128).

(** [text.lstrip()]: the white space characters at the front are removed. *)
Fixpoint lstrip (s : string) : string :=
  match s with
  | EmptyString => EmptyString
  | String c1 s1 =>
      if is_space c1 then lstrip s1
      else
        match s1 with
        | EmptyString => s
        | String c2 s2 =>
            if is_space2 c1 c2 then lstrip s2
            else
              match s2 with
              | EmptyString => s
              | String c3 s3 => if is_space3 c1 c2 c3 then lstrip s3 else s
              end
        end
  end.

(** [text.rstrip()]: the text is cut where only white space follows.  No
    white space character starts with a continuation byte, so the cut is
    between two characters. *)
Fixpoint rstrip (s : string) : string :=
  match s with
  | EmptyString => EmptyString
  | String c s' =>
      if String.eqb (lstrip s) EmptyString then EmptyString
      else String c (rstrip s')
  end.

(** [text.strip()] *)
Definition strip (s : string) : string := rstrip (lstrip s).

Definition nl : string := String (ascii_of_nat 10) EmptyString.
Definition dq : string := String (ascii_of_nat 34) EmptyString.

(** The f-string of lines 53-67. *)
Definition prompt (text : string) : string :=
  nl ++
  "    You are an expert Knowledge Graph Extractor." ++ nl ++
  "    Analyze the following text and extract key concepts and their relationships." ++ nl ++
  "    " ++ nl ++
  "    Return ONLY a JSON object with this exact structure:" ++ nl ++
  "    {" ++ nl ++
  "      " ++ dq ++ "concepts" ++ dq ++ ": [" ++ dq ++ "Concept 1" ++ dq ++ ", "
         ++ dq ++ "Concept 2" ++ dq ++ "]," ++ nl ++
  "      " ++ dq ++ "relationships" ++ dq ++ ": [" ++ nl ++
  "        {" ++ dq ++ "source" ++ dq ++ ": " ++ dq ++ "Concept 1" ++ dq ++ ", "
         ++ dq ++ "target" ++ dq ++ ": " ++ dq ++ "Concept 2" ++ dq ++ ", "
         ++ dq ++ "relationship" ++ dq ++ ": " ++ dq ++ "verb phrase" ++ dq ++ "}" ++ nl ++
  "      ]" ++ nl ++
  "    }" ++ nl ++
  nl ++
  "    Text to analyze:" ++ nl ++
  "    " ++ text ++ nl ++
  "    ".

Definition model_name : string := "llama-3.3-70b-versatile".
Definition system_message : string :=
  "You are a helpful assistant that outputs only valid JSON.".

(** [if data:] an object without keys is false.  The data model has the
    two keys only. *)
Definition data_truthy (data : ExtractionResult) : bool :=
  match concepts data, relationships data with
  | None, None => false
  | _, _ => true
  end.

Section App.

(** [community.greedy_modularity_communities(G)]: the communities, each a
    set of nodes, or [None] when the call raises. *)
Variable greedy_modularity_communities : Graph -> option (list (list string)).

(** The provider: from the key and the two messages to the [content] of
    each returned choice ([None] when a message has none), or [inl] the
    text of the raised exception (network, status or authentication
    error). *)
Variable chat_completions_create :
  string -> string -> string -> string + list (option string).

(** [json.loads]: the decoded object, or [inl] the text of the raised
    [JSONDecodeError]. *)
Variable json_loads : string -> string + ExtractionResult.

(** [create_pyvis_graph]: the PyVis renderer and its temporary file. *)
Variable create_pyvis_graph : Graph -> string.

(** Lines 110-124. *)
Definition compute_node_colors (G : Graph) : Dict.t string :=
  match greedy_modularity_communities G with
  | Some communities => color_communities 0 communities []
  | None => map (fun node => (node, default_color)) (nodes G)
  end.

Definition create_networkx_graph (data : ExtractionResult) : Graph :=
  let G := build_structure data in
  let degrees := degrees G in
  let node_colors := compute_node_colors G in
  mkGraph (fold_left (apply_attributes degrees node_colors) (nodes G) (g_node G))
          (g_adj G).

Local Open Scope app_scope.

(** Lines 70-81, the body of the [try]. *)
Definition request (text api_key : string) : M ExtractionResult :=
  emit (ApiCall api_key model_name system_message (prompt text) 0 "json_object") ;;
  match chat_completions_create api_key system_message (prompt text) with
  | inl e => raise e
  | inr choices =>
      match choices with
      | [] => raise "list index out of range"
      | None :: _ =>
          raise "the JSON object must be str, bytes or bytearray, not NoneType"
      | Some content :: _ =>
          match json_loads content with
          | inl e => raise e
          | inr data => ret data
          end
      end
  end.

Definition extract_knowledge_graph (text api_key : string)
  : M (option ExtractionResult) :=
  try_except
    (data <- request text api_key ;; ret (Some data))
    (fun e => emit (StError ("Error calling Groq API: " ++ e)) ;; ret None).

(** [main], given what [get_groq_api_key] returned, the content of the
    text area and whether the button was pressed. *)
Definition main (api_key text_input : string) (button : bool) : M unit :=
  if negb (truthy api_key) then
    emit (StWarning "⬅️ Please enter your Groq API Key in the sidebar to start.") ;;
    ([], Stop)
  else if button then
    if negb (truthy (strip text_input)) then
      emit (StWarning "Please enter some text first.")
    else
      emit (StSpinner "⚡ Processing with Llama-3 on Groq...") ;;
      data <- extract_knowledge_graph text_input api_key ;;
      match data with
      | Some data =>
          if data_truthy data then
            let nx_graph := create_networkx_graph data in
            if Nat.ltb 0 (number_of_nodes nx_graph) then
              emit (StMetric "Concepts Found" (number_of_nodes nx_graph)) ;;
              emit (StMetric "Connections" (number_of_edges nx_graph)) ;;
              let html_string := create_pyvis_graph nx_graph in
              emit (StSubheader "Interactive Graph Result:") ;;
              emit (ComponentsHtml html_string 650)
            else
              emit (StWarning "No concepts found in the text. Try a different text.")
          else ret tt
      | None => ret tt
      end
  else ret tt.

End App.

(** ** Vocabulary of the statements *)

(** The two endpoints of a relationship that passes [if source and target]. *)
Definition endpoints (rel : Relationship) : option (string * string) :=
  match source rel, target rel with
  | Some s, Some t => if truthy s && truthy t then Some (s, t) else None
  | _, _ => None
  end.

(** [{a, b} = {u, v}] as unordered pairs. *)
Definition same_pair (a b u v : string) : bool :=
  (String.eqb a u && String.eqb b v) || (String.eqb a v && String.eqb b u).

(** The relationship is inserted and joins [u] and [v]. *)
Definition joins (u v : string) (rel : Relationship) : bool :=
  match endpoints rel with
  | Some (s, t) => same_pair s t u v
  | None => false
  end.

(** The attribute dictionary [add_edge] leaves on an edge labelled [r]. *)
Definition labelled (r : string) : EdgeAttr := mkEdgeAttr (Some r) (Some r).

(** The edges of the edge view that join [u] and [v]. *)
Definition edges_between (G : Graph) (u v : string)
  : list (string * string * EdgeAttr) :=
  filter (fun '(a, b, _) => same_pair a b u v) (edges G).

(** The edges of the edge view that have [n] as an endpoint; a self-loop
    is one of them, once. *)
Definition incident_edges (G : Graph) (n : string)
  : list (string * string * EdgeAttr) :=
  filter (fun '(a, b, _) => String.eqb a n || String.eqb b n) (edges G).

(** [G.nodes[n]['size']] and [G.nodes[n]['color']] *)
Definition node_size (G : Graph) (n : string) : option nat :=
  match Dict.get n (g_node G) with Some a => n_size a | None => None end.

Definition node_color (G : Graph) (n : string) : option string :=
  match Dict.get n (g_node G) with Some a => n_color a | None => None end.

(** The representation invariant of [networkx.Graph]: both dictionaries
    have the same keys, and the adjacency is symmetric, attributes
    included. *)
Record wf_graph (G : Graph) : Prop := {
  wf_keys : Dict.keys (g_node G) = Dict.keys (g_adj G);
  wf_nodup : NoDup (Dict.keys (g_adj G));
  wf_nbrs : forall n, NoDup (Dict.keys (adj_of (g_adj G) n));
  wf_sym : forall u v dd,
      Dict.get v (adj_of (g_adj G) u) = Some dd ->
      Dict.get u (adj_of (g_adj G) v) = Some dd
}.

(** The state of the edge view in the middle of its iteration: [seen] are
    the nodes visited so far, [adj] the entries still to visit, [nb] the
    neighbours of every node. *)
Record view_ok (nb : string -> Dict.t EdgeAttr) (seen : list string)
    (adj : Dict.t (Dict.t EdgeAttr)) : Prop := {
  vo_nodup : NoDup (Dict.keys adj);
  vo_fresh : forall k, In k (Dict.keys adj) -> ~ In k seen;
  vo_nb : forall n nbrs, In (n, nbrs) adj -> nbrs = nb n;
  vo_closed : forall v, nb v <> [] -> In v seen \/ In v (Dict.keys adj)
}.

(** What the last loop stores for a node. *)
Definition styled (degs : Dict.t nat) (cols : Dict.t string) (n : string)
    (a : NodeAttr) : Prop :=
  n_size a = Some (20 + (match Dict.get n degs with Some d => d | None => 0 end) * 5)
  /\ n_color a = Some (match Dict.get n cols with Some c => c | None => default_color end)
  /\ n_font a = Some node_font.

(** The scenarios of the specification. *)
Definition scenario1 : ExtractionResult :=
  mkData (Some ["A"; "B"]) (Some [mkRel (Some "A") (Some "B") (Some "uses")]).

Definition scenario3 : ExtractionResult :=
  mkData (Some ["A"]) (Some [mkRel (Some "A") (Some "C") (Some "implies")]).

Definition scenario5 : ExtractionResult :=
  mkData (Some ["A"; "B"])
         (Some [mkRel (Some "A") (Some "B") (Some "uses");
                mkRel (Some "A") (Some "B") (Some "uses")]).

(** ** The credential lookup, lines 20-44 *)

(** What [get_groq_api_key] puts in the sidebar. *)
Inductive SidebarWidget : Type :=
| SbHeader (text : string)                        (* [st.header] *)
| SbTextInput (label type help : string)          (* [st.text_input] *)
| SbMarkdown (text : string).                     (* [st.markdown] *)

Definition sidebar_prompt : list SidebarWidget :=
  [SbHeader "🔑 Authentication";
   SbTextInput "Enter Groq API Key" "password"
     "Get a free key here: https://console.groq.com/keys";
   SbMarkdown "[Get Free API Key](https://console.groq.com/keys)"].

(** [not api_key], for [None] or a string. *)
Definition falsy (api_key : option string) : bool :=
  match api_key with
  | Some k => negb (truthy k)
  | None => true
  end.

(** [get_groq_api_key].  [secrets] is what reading [st.secrets] gives for
    the key: [inl] when the access raises, [inr None] when the key is not
    there; [env] is [os.getenv("GROQ_API_KEY")]; [typed] is what the
    password field of the sidebar returns.  The result is the key and what
    was shown in the sidebar. *)
Definition get_groq_api_key (secrets : string + option string)
    (env : option string) (typed : string) : string * list SidebarWidget :=
  let api_key :=
    match secrets with
    | inr (Some v) => Some v
    | inr None => None
    | inl _ => None
    end in
  let api_key := if falsy api_key then env else api_key in
  match api_key with
  | Some k => if truthy k then (k, []) else (typed, sidebar_prompt)
  | None => (typed, sidebar_prompt)
  end.

(** [main] from its first line: the lookup, then the rest. *)
Definition main_with_lookup
    (gmc : Graph -> option (list (list string)))
    (chat : string -> string -> string -> string + list (option string))
    (json : string -> string + ExtractionResult)
    (render : Graph -> string)
    (secrets : string + option string) (env : option string) (typed : string)
    (text_input : string) (button : bool)
  : list SidebarWidget * M unit :=
  let '(api_key, sidebar) := get_groq_api_key secrets env typed in
  (sidebar, main gmc chat json render api_key text_input button).

(** [greedy_modularity_communities] on a graph without edges, as the
    library has it now: [if not G.size(): return [{n} for n in G]], one
    community per node, where its earlier versions raise. *)
Definition one_community_per_node (G : Graph) : option (list (list string)) :=
  Some (map (fun n => [n]) (nodes G)).

(** ** Vocabulary of the further properties *)

(** Insertion into a list of distinct strings, as a dictionary orders its
    keys: a string that is there stays where it is, a new one goes last. *)
Definition add_new (acc : list string) (x : string) : list string :=
  if existsb (String.eqb x) acc then acc else acc ++ [x].

(** The distinct strings of a list, in the order of their first
    occurrence. *)
Definition first_seen (l : list string) : list string :=
  fold_left add_new l [].

(** The endpoints a relationship contributes: both, or none when the
    guard skips it. *)
Definition endpoint_list (rel : Relationship) : list string :=
  match endpoints rel with
  | Some (s, t) => [s; t]
  | None => []
  end.

(** The last relationship of the list that joins [u] and [v]. *)
Definition last_joining (u v : string) (rels : list Relationship)
  : option Relationship :=
  find (joins u v) (rev rels).

(** The relationship read in the other direction. *)
Definition swap_direction (rel : Relationship) : Relationship :=
  mkRel (target rel) (source rel) (relationship rel).

Definition swap_all (data : ExtractionResult) : ExtractionResult :=
  mkData (concepts data)
         (match relationships data with
          | Some rels => Some (map swap_direction rels)
          | None => None
          end).

(** [G.nodes[n].get('title')] *)
Definition node_title (G : Graph) (n : string) : option string :=
  match Dict.get n (g_node G) with Some a => n_title a | None => None end.

(** [G.nodes[n].get('font')] *)
Definition node_font_of (G : Graph) (n : string) : option Font :=
  match Dict.get n (g_node G) with Some a => n_font a | None => None end.

(** The calls to the provider among the events of a run. *)
Definition is_api_call (e : Event) : bool :=
  match e with
  | ApiCall _ _ _ _ _ _ => true
  | _ => false
  end.

Definition api_calls (w : list Event) : nat := length (filter is_api_call w).

(** Every character is one that [strip] removes. *)
Fixpoint all_space (s : string) : bool :=
  match s with
  | EmptyString => true
  | String c s' => is_space c && all_space s'
  end.

(** * Facts about dictionaries *)

Module DictFacts.
Import Dict.

Section Facts.
Context {V : Type}.
Implicit Types (d : Dict.t V) (k : string) (v : V).

Lemma get_set_eq k v d : get k (set k v d) = Some v.
Proof.
  induction d as [| [k' v'] d IH]; simpl.
  - now rewrite String.eqb_refl.
  - destruct (String.eqb k k') eqn:E; simpl; rewrite E; auto.
Qed.

Lemma get_set_ne k k' v d : k <> k' -> get k' (set k v d) = get k' d.
Proof.
  intros Hne. induction d as [| [k0 v0] d IH]; simpl.
  - destruct (String.eqb_spec k' k); congruence.
  - destruct (String.eqb_spec k k0); simpl.
    + subst k0. destruct (String.eqb_spec k' k); congruence.
    + now rewrite IH.
Qed.

Lemma get_set k k' v d :
  get k' (set k v d) = if String.eqb k k' then Some v else get k' d.
Proof.
  destruct (String.eqb_spec k k').
  - subst. apply get_set_eq.
  - now apply get_set_ne.
Qed.

Lemma get_Some_In k v d : get k d = Some v -> In (k, v) d.
Proof.
  induction d as [| [k' v'] d IH]; simpl; [discriminate |].
  destruct (String.eqb_spec k k').
  - intros [= ->]. subst. now left.
  - auto.
Qed.

Lemma get_None_iff k d : get k d = None <-> ~ In k (keys d).
Proof.
  induction d as [| [k' v'] d IH]; simpl.
  - tauto.
  - destruct (String.eqb_spec k k').
    + subst. split; [discriminate | intros H; exfalso; apply H; now left].
    + rewrite IH. split; intros H; [intros [E | HI]; congruence | tauto].
Qed.

Lemma contains_iff k d : contains k d = true <-> In k (keys d).
Proof.
  unfold contains. destruct (get k d) eqn:E.
  - split; auto. intros _.
    apply get_Some_In in E. apply (in_map fst) in E. exact E.
  - apply get_None_iff in E. split; [discriminate | tauto].
Qed.

Lemma contains_false_iff k d : contains k d = false <-> ~ In k (keys d).
Proof.
  rewrite <- contains_iff. destruct (contains k d); split; congruence.
Qed.

Lemma In_get k v d : NoDup (keys d) -> In (k, v) d -> get k d = Some v.
Proof.
  induction d as [| [k' v'] d IH]; simpl; [tauto |].
  intros Hnd [E | HI].
  - inversion E; subst. now rewrite String.eqb_refl.
  - inversion Hnd as [| ? ? Hk Hnd']; subst.
    destruct (String.eqb_spec k k').
    + subst. exfalso. apply Hk. apply (in_map fst) in HI. exact HI.
    + auto.
Qed.

Lemma contains_set k k' v d :
  contains k' (set k v d) = String.eqb k k' || contains k' d.
Proof.
  unfold contains. rewrite get_set. now destruct (String.eqb k k').
Qed.

Lemma set_notin k v d : ~ In k (keys d) -> set k v d = d ++ [(k, v)].
Proof.
  induction d as [| [k' v'] d IH]; simpl; auto.
  intros H. destruct (String.eqb_spec k k').
  - exfalso. apply H. now left.
  - rewrite IH; auto.
Qed.

Lemma keys_set_in k v d : In k (keys d) -> keys (set k v d) = keys d.
Proof.
  induction d as [| [k' v'] d IH]; simpl; [tauto |].
  intros H. destruct (String.eqb_spec k k'); simpl; auto.
  rewrite IH; auto. destruct H; congruence.
Qed.

Lemma keys_set k v d :
  keys (set k v d) = if contains k d then keys d else keys d ++ [k].
Proof.
  destruct (contains k d) eqn:E.
  - apply keys_set_in. now apply contains_iff.
  - apply contains_false_iff in E. rewrite set_notin by exact E.
    unfold keys. now rewrite map_app.
Qed.

Lemma In_keys_set x k v d : In x (keys (set k v d)) <-> x = k \/ In x (keys d).
Proof.
  rewrite keys_set. destruct (contains k d) eqn:E.
  - apply contains_iff in E. split; [auto | intros [-> | H]; auto].
  - rewrite in_app_iff. simpl. intuition congruence.
Qed.

Lemma NoDup_keys_set k v d : NoDup (keys d) -> NoDup (keys (set k v d)).
Proof.
  intros H. rewrite keys_set. destruct (contains k d) eqn:E; auto.
  apply contains_false_iff in E.
  apply NoDup_app; auto.
  - constructor; [simpl; tauto | constructor].
  - intros x Hx [<- | []]. contradiction.
Qed.

Lemma length_set k v d :
  length (set k v d) = length d + (if contains k d then 0 else 1).
Proof.
  rewrite <- (length_map fst (set k v d)), <- (length_map fst d).
  fold (keys (set k v d)). fold (keys d). rewrite keys_set.
  destruct (contains k d); [lia | rewrite length_app; simpl; lia].
Qed.

Lemma In_keys_filter (f : string * V -> bool) k d :
  In k (keys (filter f d)) -> In k (keys d).
Proof.
  unfold keys. rewrite !in_map_iff. intros (x & E & H).
  apply filter_In in H. exists x. tauto.
Qed.

Lemma NoDup_filter_keys (f : string * V -> bool) d :
  NoDup (keys d) -> NoDup (keys (filter f d)).
Proof.
  induction d as [| [k x] d IH]; simpl; auto.
  intros H. inversion H as [| ? ? Hk Hnd]; subst.
  destruct (f (k, x)); simpl; auto.
  constructor; auto. intros Hin. apply Hk. eapply In_keys_filter, Hin.
Qed.

Lemma filter_nil {A : Type} (f : A -> bool) (l : list A) :
  (forall x, In x l -> f x = false) -> filter f l = [].
Proof.
  intros H. rewrite <- (filter_false l). now apply filter_ext_in.
Qed.

Lemma contains_cons k k' v d :
  contains k ((k', v) :: d) = String.eqb k k' || contains k d.
Proof. unfold contains. simpl. now destruct (String.eqb k k'). Qed.

(** A key occurs once in a dictionary that has it. *)
Lemma count_key w d :
  NoDup (keys d) ->
  length (filter (fun '(k, _) => String.eqb k w) d) = if contains w d then 1 else 0.
Proof.
  induction d as [| [k x] d IH]; intros Hnd; simpl; auto.
  inversion Hnd as [| ? ? Hk Hnd']; subst.
  rewrite contains_cons, (String.eqb_sym w k).
  destruct (String.eqb_spec k w) as [-> | Hne]; simpl.
  - rewrite IH by exact Hnd'.
    apply contains_false_iff in Hk. now rewrite Hk.
  - auto.
Qed.

End Facts.

End DictFacts.

(** * Facts about the graph operations *)

Module GraphFacts.
Import Dict DictFacts.

Lemma adj_of_set k x adj n :
  adj_of (set k x adj) n = if String.eqb k n then x else adj_of adj n.
Proof.
  unfold adj_of. rewrite get_set. now destruct (String.eqb k n).
Qed.

Lemma adj_of_notin adj n : ~ In n (keys adj) -> adj_of adj n = [].
Proof.
  intros H. apply get_None_iff in H. unfold adj_of. now rewrite H.
Qed.

Lemma wf_empty : wf_graph empty_graph.
Proof.
  split; simpl; intros; try constructor; auto.
Qed.

(** A node that was not there is appended to both dictionaries, with no
    neighbour. *)
Lemma adj_of_new_node G n m :
  wf_graph G -> ~ In n (nodes G) ->
  adj_of (set n [] (g_adj G)) m = adj_of (g_adj G) m.
Proof.
  intros [Hk _ _ _] Hn. unfold nodes in Hn.
  rewrite adj_of_set. destruct (String.eqb_spec n m); auto.
  subst. symmetry. apply adj_of_notin. now rewrite <- Hk.
Qed.

Lemma wf_new_node G n a :
  wf_graph G -> ~ In n (nodes G) ->
  wf_graph (mkGraph (set n a (g_node G)) (set n [] (g_adj G))).
Proof.
  intros Hwf Hn.
  pose proof (fun m => adj_of_new_node G n m Hwf Hn) as Hadj.
  destruct Hwf as [Hk Hnd Hnb Hsym]. unfold nodes in Hn.
  split; simpl.
  - rewrite !keys_set. rewrite <- (contains_iff n (g_node G)) in Hn.
    assert (E : contains n (g_adj G) = contains n (g_node G)).
    { apply eq_true_iff_eq. rewrite !contains_iff. now rewrite Hk. }
    rewrite E. destruct (contains n (g_node G)); congruence.
  - now apply NoDup_keys_set.
  - intros m. rewrite Hadj. apply Hnb.
  - intros u v dd. rewrite !Hadj. apply Hsym.
Qed.

(** Writing the attributes of an existing node leaves the graph as it is. *)
Lemma wf_set_attr G n a :
  wf_graph G -> In n (nodes G) ->
  wf_graph (mkGraph (set n a (g_node G)) (g_adj G)).
Proof.
  intros [Hk Hnd Hnb Hsym] Hn. split; simpl; auto.
  rewrite keys_set_in; auto.
Qed.

Lemma get_nodes_iff G n : get n (g_node G) = None <-> ~ In n (nodes G).
Proof. apply get_None_iff. Qed.

Lemma wf_add_node G n t : wf_graph G -> wf_graph (add_node G n t).
Proof.
  intros Hwf. unfold add_node. destruct (get n (g_node G)) eqn:E.
  - apply wf_set_attr; auto. apply contains_iff. unfold contains. now rewrite E.
  - apply wf_new_node; auto. now apply get_nodes_iff.
Qed.

Lemma nodes_add_node G n t x :
  In x (nodes (add_node G n t)) <-> x = n \/ In x (nodes G).
Proof.
  unfold add_node, nodes. destruct (get n (g_node G)); simpl; apply In_keys_set.
Qed.

Lemma adj_of_add_node G n t m :
  wf_graph G -> adj_of (g_adj (add_node G n t)) m = adj_of (g_adj G) m.
Proof.
  intros Hwf. unfold add_node. destruct (get n (g_node G)) eqn:E; simpl; auto.
  apply adj_of_new_node; auto. now apply get_nodes_iff.
Qed.

Lemma wf_ensure_node G n : wf_graph G -> wf_graph (ensure_node G n).
Proof.
  intros Hwf. unfold ensure_node. destruct (contains n (g_node G)) eqn:E; auto.
  apply wf_new_node; auto. now apply contains_false_iff.
Qed.

Lemma nodes_ensure_node G n x :
  In x (nodes (ensure_node G n)) <-> x = n \/ In x (nodes G).
Proof.
  unfold ensure_node, nodes. destruct (contains n (g_node G)) eqn:E; simpl.
  - apply contains_iff in E. intuition congruence.
  - apply In_keys_set.
Qed.

Lemma adj_of_ensure_node G n m :
  wf_graph G -> adj_of (g_adj (ensure_node G n)) m = adj_of (g_adj G) m.
Proof.
  intros Hwf. unfold ensure_node. destruct (contains n (g_node G)) eqn:E; simpl; auto.
  apply adj_of_new_node; auto. now apply contains_false_iff.
Qed.

(** ** [add_edge] *)

Lemma edge_update_labelled old r :
  edge_update old (mkEdgeAttr (Some r) (Some r)) = labelled r.
Proof. reflexivity. Qed.

Lemma g_node_add_edge G u v r :
  g_node (add_edge G u v r) = g_node (ensure_node (ensure_node G u) v).
Proof. reflexivity. Qed.

Lemma nodes_add_edge G u v r x :
  In x (nodes (add_edge G u v r)) <-> x = u \/ x = v \/ In x (nodes G).
Proof.
  unfold nodes at 1. rewrite g_node_add_edge.
  fold (nodes (ensure_node (ensure_node G u) v)).
  rewrite nodes_ensure_node, nodes_ensure_node. tauto.
Qed.

(** The neighbours of [n] after [add_edge G u v r]. *)
Lemma adj_of_add_edge G u v r n :
  wf_graph G ->
  adj_of (g_adj (add_edge G u v r)) n =
    let nb := adj_of (g_adj G) n in
    let nb1 := if String.eqb u n then set v (labelled r) nb else nb in
    if String.eqb v n then set u (labelled r) nb1 else nb1.
Proof.
  intros Hwf. unfold add_edge. cbn [g_adj]. rewrite edge_update_labelled.
  pose proof (wf_ensure_node G u Hwf) as Hwf1.
  assert (Hadj : forall m,
             adj_of (g_adj (ensure_node (ensure_node G u) v)) m = adj_of (g_adj G) m).
  { intros m. rewrite adj_of_ensure_node by exact Hwf1.
    now apply adj_of_ensure_node. }
  rewrite !adj_of_set, !Hadj. cbv zeta.
  destruct (String.eqb_spec v n), (String.eqb_spec u n), (String.eqb_spec u v);
    subst; congruence.
Qed.

Lemma keys_adj_add_edge G u v r :
  wf_graph G ->
  keys (g_adj (add_edge G u v r)) = keys (g_node (add_edge G u v r)).
Proof.
  intros Hwf. rewrite g_node_add_edge.
  pose proof (wf_ensure_node _ v (wf_ensure_node G u Hwf)) as Hwf2.
  unfold add_edge. cbn [g_adj].
  set (G1 := ensure_node (ensure_node G u) v) in *.
  assert (Hu : In u (keys (g_adj G1))).
  { rewrite <- (wf_keys _ Hwf2). apply nodes_ensure_node. right.
    apply nodes_ensure_node. now left. }
  assert (Hv : In v (keys (g_adj G1))).
  { rewrite <- (wf_keys _ Hwf2). apply nodes_ensure_node. now left. }
  rewrite keys_set_in.
  - rewrite keys_set_in by exact Hu. symmetry. apply (wf_keys _ Hwf2).
  - apply In_keys_set. now right.
Qed.

(** [G.edges[a, b]] after [add_edge G u v r]. *)
Lemma edge_data_add_edge G u v r a b :
  wf_graph G ->
  edge_data (add_edge G u v r) a b =
    if same_pair u v a b then Some (labelled r) else edge_data G a b.
Proof.
  intros Hwf. unfold edge_data. rewrite adj_of_add_edge by exact Hwf.
  cbv zeta. unfold same_pair.
  destruct (String.eqb_spec v a), (String.eqb_spec u a);
    rewrite ?get_set;
    destruct (String.eqb_spec u b), (String.eqb_spec v b);
    subst; simpl; try reflexivity; try congruence.
Qed.

Lemma wf_add_edge G u v r : wf_graph G -> wf_graph (add_edge G u v r).
Proof.
  intros Hwf.
  pose proof (wf_ensure_node _ v (wf_ensure_node G u Hwf)) as Hwf2.
  split.
  - symmetry. now apply keys_adj_add_edge.
  - rewrite keys_adj_add_edge, g_node_add_edge by exact Hwf.
    rewrite (wf_keys _ Hwf2). apply (wf_nodup _ Hwf2).
  - intros n. rewrite adj_of_add_edge by exact Hwf. cbv zeta.
    pose proof (wf_nbrs _ Hwf n).
    destruct (String.eqb v n), (String.eqb u n); auto using NoDup_keys_set.
  - intros a b dd. fold (edge_data (add_edge G u v r) a b).
    fold (edge_data (add_edge G u v r) b a).
    rewrite !edge_data_add_edge by exact Hwf.
    assert (E : same_pair u v b a = same_pair u v a b).
    { unfold same_pair. apply orb_comm. }
    rewrite E. destruct (same_pair u v a b); auto.
    apply (wf_sym _ Hwf).
Qed.

(** ** The two loops *)

Lemma endpoints_Some rel s t :
  endpoints rel = Some (s, t) <->
  source rel = Some s /\ target rel = Some t /\ s <> "" /\ t <> "".
Proof.
  unfold endpoints, truthy.
  destruct (source rel) as [s0 |], (target rel) as [t0 |];
    try (split; [discriminate | intros (? & ? & _); discriminate]).
  destruct (String.eqb_spec s0 ""), (String.eqb_spec t0 ""); simpl;
    split; try discriminate;
    try (intros (E1 & E2 & ? & ?); inversion E1; inversion E2; subst; congruence).
  intros E; inversion E; subst; auto.
Qed.

(** The loop body, through [endpoints]. *)
Lemma add_relationship_endpoints G rel :
  add_relationship G rel =
    match endpoints rel with
    | Some (s, t) => add_edge G s t (get_label rel)
    | None => G
    end.
Proof.
  unfold add_relationship, endpoints.
  destruct (source rel), (target rel); auto.
  destruct (truthy _ && truthy _); auto.
Qed.

Lemma wf_add_relationship G rel : wf_graph G -> wf_graph (add_relationship G rel).
Proof.
  intros Hwf. rewrite add_relationship_endpoints.
  destruct (endpoints rel) as [[s t] |]; auto using wf_add_edge.
Qed.

Lemma wf_add_relationships rels G :
  wf_graph G -> wf_graph (fold_left add_relationship rels G).
Proof.
  revert G. induction rels as [| rel rels IH]; simpl; auto using wf_add_relationship.
Qed.

Lemma wf_add_concepts cs G :
  wf_graph G -> wf_graph (fold_left (fun G c => add_node G c c) cs G).
Proof.
  revert G. induction cs as [| c cs IH]; simpl; auto using wf_add_node.
Qed.

Lemma wf_build_structure data : wf_graph (build_structure data).
Proof.
  unfold build_structure. apply wf_add_relationships, wf_add_concepts, wf_empty.
Qed.

(** ** The node set *)

Lemma nodes_add_concepts cs G x :
  In x (nodes (fold_left (fun G c => add_node G c c) cs G)) <->
  In x cs \/ In x (nodes G).
Proof.
  revert G. induction cs as [| c cs IH]; intros G; simpl.
  - tauto.
  - rewrite IH, nodes_add_node. intuition congruence.
Qed.

Lemma nodes_add_relationship G rel x :
  In x (nodes (add_relationship G rel)) <->
  In x (nodes G) \/ exists s t, endpoints rel = Some (s, t) /\ (x = s \/ x = t).
Proof.
  rewrite add_relationship_endpoints.
  destruct (endpoints rel) as [[s t] |].
  - rewrite nodes_add_edge. split.
    + intros [-> | [-> | H]]; eauto 6.
    + intros [H | (s' & t' & E & H)]; [tauto |]. inversion E; subst. tauto.
  - split; [tauto |]. intros [H | (s & t & E & _)]; [exact H | discriminate].
Qed.

Lemma nodes_add_relationships rels G x :
  In x (nodes (fold_left add_relationship rels G)) <->
  In x (nodes G) \/
  exists rel s t, In rel rels /\ endpoints rel = Some (s, t) /\ (x = s \/ x = t).
Proof.
  revert G. induction rels as [| rel rels IH]; intros G; simpl.
  - split; [tauto |]. intros [H | (? & ? & ? & [] & _)]. exact H.
  - rewrite IH, nodes_add_relationship. split.
    + intros [[H | (s & t & E & H)] | (r & s & t & Hin & E & H)]; eauto 10.
    + intros [H | (r & s & t & [<- | Hin] & E & H)]; eauto 10.
Qed.

Lemma nodes_build_structure data x :
  In x (nodes (build_structure data)) <->
  In x (get_concepts data) \/
  exists rel s t, In rel (get_relationships data)
                  /\ endpoints rel = Some (s, t) /\ (x = s \/ x = t).
Proof.
  unfold build_structure. rewrite nodes_add_relationships, nodes_add_concepts.
  simpl. tauto.
Qed.

(** ** The last loop: attributes *)

Lemma keys_apply_attributes degs cols d node :
  In node (keys d) -> keys (apply_attributes degs cols d node) = keys d.
Proof. intros H. unfold apply_attributes. now apply keys_set_in. Qed.

Lemma keys_fold_apply_attributes degs cols ns d :
  (forall n, In n ns -> In n (keys d)) ->
  keys (fold_left (apply_attributes degs cols) ns d) = keys d.
Proof.
  revert d. induction ns as [| n ns IH]; intros d H; simpl; auto.
  rewrite IH.
  - apply keys_apply_attributes. apply H. now left.
  - intros m Hm. rewrite keys_apply_attributes; apply H; simpl; auto.
Qed.

Lemma get_map_keys {V : Type} (f : string -> V) n l :
  In n l -> get n (map (fun k => (k, f k)) l) = Some (f n).
Proof.
  induction l as [| k l IH]; simpl; [tauto |].
  intros H. destruct (String.eqb_spec n k); [now subst |].
  apply IH. destruct H; congruence.
Qed.

Lemma get_fold_apply_attributes degs cols n ns d :
  In n ns \/ (exists a, get n d = Some a /\ styled degs cols n a) ->
  exists a, get n (fold_left (apply_attributes degs cols) ns d) = Some a
            /\ styled degs cols n a.
Proof.
  revert d. induction ns as [| m ns IH]; intros d H; simpl.
  - destruct H as [[] | H]. exact H.
  - apply IH. destruct (String.eqb_spec m n) as [-> | Hne].
    + right. unfold apply_attributes. rewrite get_set_eq.
      eexists. split; [reflexivity |]. repeat split.
    + destruct H as [[E | H] | (a & Ha & Hs)]; [congruence | now left |].
      right. exists a. split; [| exact Hs].
      unfold apply_attributes. now rewrite get_set_ne.
Qed.

Section Final.
Variable gmc : Graph -> option (list (list string)).
Variable data : ExtractionResult.

Lemma g_adj_create :
  g_adj (create_networkx_graph gmc data) = g_adj (build_structure data).
Proof. reflexivity. Qed.

Lemma nodes_create :
  nodes (create_networkx_graph gmc data) = nodes (build_structure data).
Proof.
  unfold nodes, create_networkx_graph. cbn [g_node].
  apply keys_fold_apply_attributes. auto.
Qed.

Lemma edges_create :
  edges (create_networkx_graph gmc data) = edges (build_structure data).
Proof. reflexivity. Qed.

Lemma degree_create n :
  degree (create_networkx_graph gmc data) n = degree (build_structure data) n.
Proof. reflexivity. Qed.

Lemma edge_data_create u v :
  edge_data (create_networkx_graph gmc data) u v
  = edge_data (build_structure data) u v.
Proof. reflexivity. Qed.

Lemma wf_create : wf_graph (create_networkx_graph gmc data).
Proof.
  pose proof (wf_build_structure data) as [Hk Hnd Hnb Hsym].
  split; rewrite ?g_adj_create; auto.
  fold (nodes (create_networkx_graph gmc data)). now rewrite nodes_create.
Qed.

Lemma attrs_create n :
  In n (nodes (build_structure data)) ->
  exists a, get n (g_node (create_networkx_graph gmc data)) = Some a
            /\ n_size a = Some (20 + degree (build_structure data) n * 5)
            /\ n_color a =
                 Some (match get n (compute_node_colors gmc (build_structure data)) with
                       | Some c => c
                       | None => default_color
                       end).
Proof.
  intros Hn. unfold create_networkx_graph. cbn [g_node].
  destruct (get_fold_apply_attributes
              (degrees (build_structure data))
              (compute_node_colors gmc (build_structure data))
              n (nodes (build_structure data)) (g_node (build_structure data)))
    as (a & Ha & Hs & Hc & _); [now left |].
  exists a. split; [exact Ha |]. split; [| exact Hc].
  rewrite Hs. unfold degrees. now rewrite get_map_keys.
Qed.

End Final.

(** ** The edge view *)

Lemma mem_iff x l : existsb (String.eqb x) l = true <-> In x l.
Proof.
  rewrite existsb_exists. split.
  - intros (y & Hy & E). apply String.eqb_eq in E. now subst.
  - intros H. exists x. split; auto. apply String.eqb_refl.
Qed.

Lemma unseen_iff seen k dd : unseen seen (k, dd) = true <-> ~ In k seen.
Proof.
  unfold unseen. rewrite negb_true_iff, <- not_true_iff_false, mem_iff. tauto.
Qed.

Lemma In_head (n : string) seen (nbrs : Dict.t EdgeAttr) a b dd :
  In (a, b, dd)
     (map (fun '(nbr, dd) => (n, nbr, dd)) (filter (unseen seen) nbrs))
  <-> a = n /\ In (b, dd) nbrs /\ ~ In b seen.
Proof.
  rewrite in_map_iff. split.
  - intros ([k x] & E & H). inversion E; subst.
    apply filter_In in H. rewrite unseen_iff in H. tauto.
  - intros (-> & H & Hs). exists (b, dd). split; auto.
    apply filter_In. rewrite unseen_iff. tauto.
Qed.

(** Every reported edge is an adjacency entry whose neighbour was unseen. *)
Lemma edges_from_sound seen adj a b dd :
  In (a, b, dd) (edges_from seen adj) ->
  exists nbrs, In (a, nbrs) adj /\ In (b, dd) nbrs /\ ~ In b seen.
Proof.
  revert seen. induction adj as [| [n nbrs] adj IH]; intros seen; simpl; [tauto |].
  rewrite in_app_iff, In_head. intros [(-> & H & Hs) | H].
  - exists nbrs. auto.
  - destruct (IH _ H) as (nbrs' & H1 & H2 & H3).
    exists nbrs'. simpl in H3. tauto.
Qed.

Lemma edges_from_keys seen adj a b dd :
  In (a, b, dd) (edges_from seen adj) -> In a (keys adj) /\ ~ In b seen.
Proof.
  intros H. destruct (edges_from_sound _ _ _ _ _ H) as (nbrs & H1 & _ & H3).
  split; auto. apply (in_map fst) in H1. exact H1.
Qed.

Section EdgeView.
Variable nb : string -> Dict.t EdgeAttr.
Hypothesis nb_nodup : forall n, NoDup (keys (nb n)).
Hypothesis nb_sym :
  forall u v dd, get v (nb u) = Some dd -> get u (nb v) = Some dd.

Lemma view_ok_tail seen n nbrs adj :
  view_ok nb seen ((n, nbrs) :: adj) ->
  view_ok nb (n :: seen) adj /\ nbrs = nb n /\ ~ In n seen /\ ~ In n (keys adj).
Proof.
  intros [Hnd Hfr Hnb Hcl]. simpl in *. inversion Hnd as [| ? ? Hn Hnd']; subst.
  assert (Hnbrs : nbrs = nb n) by (apply Hnb; now left).
  split; [split |]; auto.
  - intros k Hk [E | Hs]; [congruence |]. apply (Hfr k); auto.
  - intros v Hv. simpl. destruct (Hcl v Hv) as [H | [H | H]]; auto.
Qed.

Lemma nb_contains_sym u v : contains v (nb u) = contains u (nb v).
Proof.
  apply eq_true_iff_eq. unfold contains.
  destruct (get v (nb u)) eqn:E1.
  - now rewrite (nb_sym _ _ _ E1).
  - destruct (get u (nb v)) eqn:E2; [| tauto].
    apply nb_sym in E2. congruence.
Qed.

(** Every adjacency entry is reported, in one direction or the other. *)
Lemma edges_from_complete seen adj a b dd :
  view_ok nb seen adj ->
  In a (keys adj) -> get b (nb a) = Some dd -> ~ In b seen ->
  In (a, b, dd) (edges_from seen adj) \/ In (b, a, dd) (edges_from seen adj).
Proof.
  revert seen. induction adj as [| [n nbrs] adj IH]; intros seen Hok Ha Hget Hb.
  - destruct Ha.
  - destruct (view_ok_tail _ _ _ _ Hok) as (Hok' & -> & Hn & Hn').
    simpl. rewrite !in_app_iff, !In_head.
    destruct (String.eqb_spec a n) as [-> | Hne].
    + left. left. auto using get_Some_In.
    + simpl in Ha. destruct Ha as [E | Ha]; [congruence |].
      destruct (String.eqb_spec b n) as [-> | Hne'].
      * right. left. repeat split; auto.
        -- apply get_Some_In. now apply nb_sym.
        -- apply (vo_fresh _ _ _ Hok). simpl. auto.
      * destruct (IH (n :: seen) Hok' Ha Hget) as [H | H]; auto.
        simpl. intros [E | H]; congruence.
Qed.

(** An edge is never reported twice, in either direction. *)
Lemma count_at_most_one {V : Type} (f : string * V -> bool) (d : Dict.t V) w :
  NoDup (keys d) ->
  (forall k x, In (k, x) d -> f (k, x) = true -> k = w) ->
  length (filter f d) <= 1.
Proof.
  induction d as [| [k x] d IH]; intros Hnd Hf; simpl; [lia |].
  inversion Hnd as [| ? ? Hk Hnd']; subst.
  destruct (f (k, x)) eqn:E.
  - assert (k = w) by (apply (Hf k x); simpl; auto). subst k.
    assert (filter f d = []) as ->; [| simpl; lia].
    destruct (filter f d) as [| [k' x'] l] eqn:Ef; auto.
    assert (Hin : In (k', x') (filter f d)) by (rewrite Ef; now left).
    apply filter_In in Hin. destruct Hin as [Hin Hfk].
    assert (k' = w) by (apply (Hf k' x'); simpl; auto). subst.
    exfalso. apply Hk. apply (in_map fst) in Hin. exact Hin.
  - apply IH; auto. intros. apply (Hf k0 x0); simpl; auto.
Qed.

Lemma edges_from_unique seen adj u v :
  view_ok nb seen adj ->
  length (filter (fun '(a, b, _) => same_pair a b u v) (edges_from seen adj)) <= 1.
Proof.
  revert seen. induction adj as [| [n nbrs] adj IH]; intros seen Hok; simpl; [lia |].
  destruct (view_ok_tail _ _ _ _ Hok) as (Hok' & -> & Hn & Hn').
  rewrite filter_app, length_app, filter_map_swap, length_map.
  destruct (String.eqb n u || String.eqb n v) eqn:E.
  - (* the node is an endpoint: later entries cannot join the pair *)
    assert (filter (fun '(a, b, _) => same_pair a b u v) (edges_from (n :: seen) adj) = [])
      as ->.
    { destruct (filter _ (edges_from (n :: seen) adj)) as [| [[a b] dd] l] eqn:Ef; auto.
      assert (Hin : In (a, b, dd) (filter (fun '(a, b, _) => same_pair a b u v)
                                     (edges_from (n :: seen) adj)))
        by (rewrite Ef; now left).
      apply filter_In in Hin. destruct Hin as [Hin Hp].
      apply edges_from_keys in Hin. destruct Hin as [Ha Hb]. simpl in Hb.
      unfold same_pair in Hp.
      destruct (String.eqb_spec a u), (String.eqb_spec b v),
        (String.eqb_spec a v), (String.eqb_spec b u),
        (String.eqb_spec n u), (String.eqb_spec n v);
        subst; simpl in *; try discriminate; tauto. }
    simpl. rewrite Nat.add_0_r.
    apply count_at_most_one with (w := if String.eqb n u then v else u).
    + apply NoDup_filter_keys. apply nb_nodup.
    + intros k x _. unfold same_pair.
      destruct (String.eqb_spec n u), (String.eqb_spec n v),
        (String.eqb_spec k u), (String.eqb_spec k v);
        subst; simpl in *; try discriminate; congruence.
  - assert (filter (fun x : string * EdgeAttr =>
                      let '(a, b, _) := (let '(nbr, dd) := x in (n, nbr, dd)) in
                      same_pair a b u v) (filter (unseen seen) (nb n)) = []) as ->.
    { apply orb_false_iff in E. destruct E as [E1 E2].
      rewrite <- (filter_false (filter (unseen seen) (nb n))).
      apply filter_ext. intros [k x]. unfold same_pair. now rewrite E1, E2. }
    simpl. apply IH, Hok'.
Qed.

(** ** Counting *)

Lemma count_unseen_cons seen m (d : Dict.t EdgeAttr) :
  NoDup (keys d) -> ~ In m seen ->
  length (filter (unseen seen) d) =
    (if contains m d then 1 else 0) + length (filter (unseen (m :: seen)) d).
Proof.
  intros Hnd Hm. induction d as [| [k x] d IH]; auto.
  inversion Hnd as [| ? ? Hk Hnd']; subst.
  specialize (IH Hnd'). rewrite contains_cons.
  assert (U : unseen (m :: seen) (k, x)
              = negb (String.eqb k m) && unseen seen (k, x)).
  { unfold unseen. simpl. now rewrite negb_orb. }
  cbn [filter]. rewrite U.
  destruct (String.eqb_spec k m) as [-> | Hne].
  - rewrite String.eqb_refl.
    assert (E : unseen seen (m, x) = true) by now apply unseen_iff.
    rewrite E. apply contains_false_iff in Hk. rewrite Hk in IH.
    simpl. lia.
  - assert (E : String.eqb m k = false).
    { apply String.eqb_neq. congruence. }
    rewrite E. destruct (unseen seen (k, x)); simpl; lia.
Qed.

Lemma contains_filter_unseen seen k (d : Dict.t EdgeAttr) :
  ~ In k seen -> contains k (filter (unseen seen) d) = contains k d.
Proof.
  intros Hk. induction d as [| [k' x] d IH]; auto.
  cbn [filter]. destruct (unseen seen (k', x)) eqn:E.
  - now rewrite !contains_cons, IH.
  - rewrite contains_cons, IH.
    destruct (String.eqb_spec k k') as [-> | Hne]; auto.
    apply (unseen_iff seen k' x) in Hk. rewrite Hk in E. discriminate.
Qed.

(** The reported edges that touch an unvisited node are its unseen
    neighbours. *)
Lemma incident_count seen adj n0 :
  view_ok nb seen adj -> In n0 (keys adj) -> ~ In n0 seen ->
  length (filter (fun '(a, b, _) => String.eqb a n0 || String.eqb b n0)
            (edges_from seen adj))
  = length (filter (unseen seen) (nb n0)).
Proof.
  revert seen. induction adj as [| [m nbrs] adj IH]; intros seen Hok Hin Hs.
  - destruct Hin.
  - destruct (view_ok_tail _ _ _ _ Hok) as (Hok' & -> & Hm & Hm').
    simpl. rewrite filter_app, length_app, filter_map_swap, length_map.
    destruct (String.eqb_spec m n0) as [-> | Hne].
    + rewrite (filter_nil _ (edges_from (n0 :: seen) adj)).
      * rewrite (filter_ext _ (fun _ => true)), filter_true; [simpl; lia |].
        intros [k x]. now rewrite String.eqb_refl.
      * intros [[a b] dd] H. apply edges_from_keys in H. destruct H as [Ha Hb].
        simpl in Hb.
        destruct (String.eqb_spec a n0), (String.eqb_spec b n0); subst; tauto.
    + simpl in Hin. destruct Hin as [E | Hin]; [congruence |].
      rewrite IH; auto; [| simpl; intros [E | H]; congruence].
      rewrite (filter_ext _ (fun '(k, _) => String.eqb k n0)).
      * rewrite count_key by (apply NoDup_filter_keys, nb_nodup).
        rewrite contains_filter_unseen by exact Hs.
        rewrite (count_unseen_cons seen m) by auto.
        now rewrite (nb_contains_sym m n0).
      * intros [k x]. apply String.eqb_neq in Hne. now rewrite Hne.
Qed.

Lemma In_keys_filter_iff (f : string * EdgeAttr -> bool) k d :
  In k (keys (filter f d)) <-> exists x, In (k, x) d /\ f (k, x) = true.
Proof.
  unfold keys. rewrite in_map_iff. split.
  - intros ([k' x] & E & H). simpl in E. subst. apply filter_In in H. eauto.
  - intros (x & H1 & H2). exists (k, x). split; auto. apply filter_In. auto.
Qed.

(** The later nodes that have [n] as a neighbour are the unseen neighbours
    of [n]: both directions of the same entries. *)
Lemma cross_count seen n adj :
  view_ok nb (n :: seen) adj ->
  list_sum (map (fun '(m, nbrs) => if contains n nbrs then 1 else 0) adj)
  = length (filter (unseen (n :: seen)) (nb n)).
Proof.
  intros Hok.
  assert (E1 : forall l : Dict.t (Dict.t EdgeAttr),
             (forall m nbrs, In (m, nbrs) l -> nbrs = nb m) ->
             list_sum (map (fun '(m, nbrs) => if contains n nbrs then 1 else 0) l)
             = length (filter (fun m => contains n (nb m)) (keys l))).
  { induction l as [| [m nbrs] l IHl]; intros Hl; simpl; auto.
    rewrite IHl by (intros; apply Hl; now right).
    rewrite <- (Hl m nbrs) by now left.
    destruct (contains n nbrs); simpl; lia. }
  rewrite E1 by apply (vo_nb _ _ _ Hok).
  rewrite <- (length_map fst (filter (unseen (n :: seen)) (nb n))).
  apply Permutation_length, NoDup_Permutation.
  - apply NoDup_filter, (vo_nodup _ _ _ Hok).
  - apply (NoDup_filter_keys (unseen (n :: seen)) (nb n)), nb_nodup.
  - intros x. rewrite filter_In. fold (keys (filter (unseen (n :: seen)) (nb n))).
    rewrite In_keys_filter_iff. split.
    + intros [Hx Hc]. unfold contains in Hc.
      destruct (get n (nb x)) as [dd |] eqn:E; [| discriminate].
      exists dd. split; [apply get_Some_In, nb_sym, E |].
      apply unseen_iff. apply (vo_fresh _ _ _ Hok), Hx.
    + intros (dd & Hin & Hu). apply unseen_iff in Hu.
      apply In_get in Hin; [| apply nb_nodup].
      apply nb_sym in Hin.
      split.
      * destruct (vo_closed _ _ _ Hok x); [| tauto | auto].
        intros E. rewrite E in Hin. discriminate.
      * unfold contains. now rewrite Hin.
Qed.

(** The handshake identity, from any point of the iteration on. *)
Lemma handshake_from seen adj :
  view_ok nb seen adj ->
  list_sum (map (fun '(n, nbrs) =>
                   length (filter (unseen seen) nbrs)
                   + (if contains n nbrs then 1 else 0)) adj)
  = 2 * length (edges_from seen adj).
Proof.
  revert seen. induction adj as [| [n nbrs] adj IH]; intros seen Hok; auto.
  destruct (view_ok_tail _ _ _ _ Hok) as (Hok' & -> & Hn & Hn').
  simpl. rewrite length_app, length_map.
  specialize (IH _ Hok'). pose proof (cross_count _ _ _ Hok') as Hx.
  assert (E : list_sum (map (fun '(m, nbrs) =>
                               length (filter (unseen seen) nbrs)
                               + (if contains m nbrs then 1 else 0)) adj)
              = list_sum (map (fun '(m, nbrs) => if contains n nbrs then 1 else 0) adj)
                + list_sum (map (fun '(m, nbrs) =>
                                   length (filter (unseen (n :: seen)) nbrs)
                                   + (if contains m nbrs then 1 else 0)) adj)).
  { pose proof (vo_nb _ _ _ Hok') as Hnb. clear -Hnb Hn nb_nodup.
    induction adj as [| [m nbrs] adj IHadj]; simpl; auto.
    rewrite IHadj by (intros; apply Hnb; now right).
    rewrite (count_unseen_cons seen n nbrs); auto; [lia |].
    rewrite (Hnb m nbrs) by now left. apply nb_nodup. }
  rewrite E, IH, Hx.
  rewrite (count_unseen_cons seen n (nb n)) by auto. lia.
Qed.

End EdgeView.

(** ** The edge view of a well-formed graph *)

Section WellFormed.
Variable G : Graph.
Hypothesis Hwf : wf_graph G.

Lemma view_ok_top : view_ok (adj_of (g_adj G)) [] (g_adj G).
Proof.
  destruct Hwf as [Hk Hnd Hnb Hsym]. split; auto.
  - intros n nbrs H. apply In_get in H; auto. unfold adj_of. now rewrite H.
  - intros v Hv. right.
    destruct (in_dec string_dec v (keys (g_adj G))) as [H | H]; auto.
    now apply adj_of_notin in H.
Qed.

Lemma edge_data_sym u v : edge_data G v u = edge_data G u v.
Proof.
  unfold edge_data.
  destruct (get v (adj_of (g_adj G) u)) as [dd |] eqn:E.
  - now apply (wf_sym _ Hwf).
  - destruct (get u (adj_of (g_adj G) v)) as [dd |] eqn:E'; auto.
    apply (wf_sym _ Hwf) in E'. congruence.
Qed.

Lemma edge_data_node u v dd : edge_data G u v = Some dd -> In u (nodes G).
Proof.
  unfold edge_data, nodes. intros H. rewrite (wf_keys _ Hwf).
  destruct (in_dec string_dec u (keys (g_adj G))) as [Hin | Hin]; auto.
  apply adj_of_notin in Hin. rewrite Hin in H. discriminate.
Qed.

(** A reported edge is an entry of the adjacency, between two nodes. *)
Lemma edges_sound a b dd :
  In (a, b, dd) (edges G) ->
  edge_data G a b = Some dd /\ In a (nodes G) /\ In b (nodes G).
Proof.
  intros H. apply edges_from_sound in H. destruct H as (nbrs & H1 & H2 & _).
  assert (E : edge_data G a b = Some dd).
  { unfold edge_data. rewrite <- (vo_nb _ _ _ view_ok_top a nbrs H1).
    apply In_get; auto. rewrite (vo_nb _ _ _ view_ok_top a nbrs H1).
    apply (wf_nbrs _ Hwf). }
  split; [exact E |]. split.
  - eapply edge_data_node, E.
  - rewrite <- edge_data_sym in E. eapply edge_data_node, E.
Qed.

Lemma edges_complete a b dd :
  edge_data G a b = Some dd ->
  In (a, b, dd) (edges G) \/ In (b, a, dd) (edges G).
Proof.
  intros H. unfold edges.
  apply (edges_from_complete (adj_of (g_adj G))); auto.
  - apply (wf_sym _ Hwf).
  - apply view_ok_top.
  - rewrite <- (wf_keys _ Hwf). eapply edge_data_node, H.
Qed.

Lemma edges_between_le1 u v : length (edges_between G u v) <= 1.
Proof.
  unfold edges_between, edges.
  apply (edges_from_unique (adj_of (g_adj G))).
  - apply (wf_nbrs _ Hwf).
  - apply view_ok_top.
Qed.

(** The only edge between two adjacent nodes, with its attributes. *)
Lemma edges_between_one u v dd :
  edge_data G u v = Some dd ->
  edges_between G u v = [(u, v, dd)] \/ edges_between G u v = [(v, u, dd)].
Proof.
  intros H. pose proof (edges_between_le1 u v) as Hle.
  assert (Hin : In (u, v, dd) (edges_between G u v)
                \/ In (v, u, dd) (edges_between G u v)).
  { unfold edges_between. rewrite !filter_In. unfold same_pair.
    rewrite !String.eqb_refl. simpl. rewrite orb_true_r.
    destruct (edges_complete _ _ _ H); auto. }
  destruct (edges_between G u v) as [| e [| e' l]]; simpl in *.
  - tauto.
  - destruct Hin as [[-> | []] | [-> | []]]; auto.
  - lia.
Qed.

Lemma handshake : sum_degrees (g_adj G) = 2 * length (edges G).
Proof.
  unfold edges.
  rewrite <- (handshake_from (adj_of (g_adj G)) (wf_nbrs _ Hwf) (wf_sym _ Hwf)
                [] (g_adj G) view_ok_top).
  unfold sum_degrees. f_equal. apply map_ext. intros [n nbrs].
  unfold degree_of. f_equal.
  rewrite (filter_ext _ (fun _ => true)), filter_true; auto.
  now intros [k x].
Qed.

Lemma number_of_edges_length : number_of_edges G = length (edges G).
Proof.
  unfold number_of_edges. rewrite handshake, Nat.mul_comm. apply Nat.div_mul. lia.
Qed.

Lemma sum_degrees_nodes :
  list_sum (map (degree G) (nodes G)) = sum_degrees (g_adj G).
Proof.
  unfold nodes. rewrite (wf_keys _ Hwf). unfold sum_degrees, keys.
  rewrite map_map. f_equal. apply map_ext_in. intros [n nbrs] H.
  unfold degree. simpl. now rewrite <- (vo_nb _ _ _ view_ok_top n nbrs H).
Qed.

(** The reported edges at a node are its adjacency entries. *)
Lemma incident_length n :
  In n (nodes G) -> length (incident_edges G n) = length (adj_of (g_adj G) n).
Proof.
  intros Hn. unfold incident_edges, edges.
  rewrite (incident_count (adj_of (g_adj G)) (wf_nbrs _ Hwf) (wf_sym _ Hwf)
             [] (g_adj G) n view_ok_top); auto.
  - rewrite (filter_ext _ (fun _ => true)), filter_true; auto. now intros [k x].
  - now rewrite <- (wf_keys _ Hwf).
Qed.

End WellFormed.

(** ** How the degree sum grows *)

Lemma sum_degrees_set k new adj :
  sum_degrees (set k new adj) + degree_of k (adj_of adj k)
  = sum_degrees adj + degree_of k new.
Proof.
  unfold sum_degrees, adj_of. induction adj as [| [k' x] adj IH]; simpl.
  - unfold degree_of at 2. simpl. lia.
  - destruct (String.eqb_spec k k') as [-> | Hne]; simpl; lia.
Qed.

Lemma degree_of_set n v dd nbrs :
  degree_of n (set v dd nbrs) =
    degree_of n nbrs
    + (if contains v nbrs then 0 else 1 + (if String.eqb n v then 1 else 0)).
Proof.
  unfold degree_of. rewrite length_set, contains_set, (String.eqb_sym v n).
  destruct (String.eqb_spec n v) as [-> | Hne]; simpl.
  - destruct (contains v nbrs); simpl; lia.
  - destruct (contains v nbrs), (contains n nbrs); simpl; lia.
Qed.

Lemma sum_degrees_ensure_node G n :
  wf_graph G -> sum_degrees (g_adj (ensure_node G n)) = sum_degrees (g_adj G).
Proof.
  intros Hwf. unfold ensure_node. destruct (contains n (g_node G)) eqn:E; auto.
  cbn [g_adj]. pose proof (sum_degrees_set n [] (g_adj G)) as H.
  rewrite adj_of_notin in H.
  - apply Nat.add_cancel_r in H. exact H.
  - rewrite <- (wf_keys _ Hwf). now apply contains_false_iff.
Qed.

(** One [add_edge] adds at most two to the degree sum. *)
Lemma sum_degrees_add_edge G u v r :
  wf_graph G ->
  sum_degrees (g_adj (add_edge G u v r)) <= sum_degrees (g_adj G) + 2.
Proof.
  intros Hwf.
  pose proof (wf_ensure_node G u Hwf) as Hwf1.
  rewrite <- (sum_degrees_ensure_node G u Hwf).
  rewrite <- (sum_degrees_ensure_node _ v Hwf1).
  unfold add_edge. cbn [g_adj]. rewrite edge_update_labelled.
  set (adj := g_adj (ensure_node (ensure_node G u) v)).
  set (adj1 := set u (set v (labelled r) (adj_of adj u)) adj).
  pose proof (sum_degrees_set u (set v (labelled r) (adj_of adj u)) adj) as H1.
  pose proof (sum_degrees_set v (set u (labelled r) (adj_of adj1 v)) adj1) as H2.
  fold adj1 in H1. rewrite degree_of_set in H1, H2.
  destruct (String.eqb_spec u v) as [-> | Hne].
  - assert (Hc : contains v (adj_of adj1 v) = true).
    { unfold adj1. now rewrite adj_of_set, String.eqb_refl, contains_set,
        String.eqb_refl. }
    rewrite Hc in H2.
    destruct (contains v (adj_of adj v)); lia.
  - assert (E : String.eqb v u = false) by (apply String.eqb_neq; congruence).
    rewrite E in H2.
    destruct (contains v (adj_of adj u)), (contains u (adj_of adj1 v));
      cbv iota in H1, H2; lia.
Qed.

Lemma sum_degrees_add_relationships rels G :
  wf_graph G ->
  sum_degrees (g_adj (fold_left add_relationship rels G))
  <= sum_degrees (g_adj G) + 2 * length rels.
Proof.
  revert G. induction rels as [| rel rels IH]; intros G Hwf; simpl; [lia |].
  specialize (IH _ (wf_add_relationship G rel Hwf)).
  assert (sum_degrees (g_adj (add_relationship G rel)) <= sum_degrees (g_adj G) + 2).
  { rewrite add_relationship_endpoints. destruct (endpoints rel) as [[s t] |].
    - now apply sum_degrees_add_edge.
    - lia. }
  lia.
Qed.

Lemma sum_degrees_add_concepts cs G :
  wf_graph G ->
  sum_degrees (g_adj (fold_left (fun G c => add_node G c c) cs G))
  = sum_degrees (g_adj G).
Proof.
  revert G. induction cs as [| c cs IH]; intros G Hwf; simpl; auto.
  rewrite IH by now apply wf_add_node.
  unfold add_node. destruct (get c (g_node G)) eqn:E; auto. cbn [g_adj].
  pose proof (sum_degrees_set c [] (g_adj G)) as H.
  rewrite adj_of_notin in H.
  - apply Nat.add_cancel_r in H. exact H.
  - rewrite <- (wf_keys _ Hwf). now apply get_None_iff.
Qed.

(** The edge count is bounded by the number of relationships. *)
Lemma edges_build_structure_le data :
  length (edges (build_structure data)) <= length (get_relationships data).
Proof.
  pose proof (handshake _ (wf_build_structure data)) as H.
  unfold build_structure in *.
  pose proof (sum_degrees_add_relationships (get_relationships data) _
                (wf_add_concepts (get_concepts data) _ wf_empty)) as H1.
  rewrite sum_degrees_add_concepts in H1 by apply wf_empty.
  unfold sum_degrees at 2 in H1. simpl in H1. lia.
Qed.

(** ** The label of an edge *)

Lemma edge_data_add_relationship G rel u v :
  wf_graph G ->
  edge_data (add_relationship G rel) u v =
    if joins u v rel then Some (labelled (get_label rel)) else edge_data G u v.
Proof.
  intros Hwf. rewrite add_relationship_endpoints. unfold joins.
  destruct (endpoints rel) as [[s t] |]; auto.
  now apply edge_data_add_edge.
Qed.

(** Relationships that do not join [u] and [v] leave their edge alone. *)
Lemma edge_data_others rels G u v :
  wf_graph G ->
  (forall rel, In rel rels -> joins u v rel = false) ->
  edge_data (fold_left add_relationship rels G) u v = edge_data G u v.
Proof.
  revert G. induction rels as [| rel rels IH]; intros G Hwf H; simpl; auto.
  rewrite IH; auto using wf_add_relationship.
  - rewrite edge_data_add_relationship by exact Hwf.
    rewrite (H rel); simpl; auto.
  - intros. apply H. now right.
Qed.

(** Last write wins. *)
Lemma edge_data_last before rel after G u v :
  wf_graph G ->
  joins u v rel = true ->
  (forall r, In r after -> joins u v r = false) ->
  edge_data (fold_left add_relationship (before ++ rel :: after) G) u v
  = Some (labelled (get_label rel)).
Proof.
  intros Hwf Hj Hafter. rewrite fold_left_app. simpl.
  pose proof (wf_add_relationships before G Hwf) as Hwf1.
  rewrite edge_data_others; auto using wf_add_relationship.
  rewrite edge_data_add_relationship by exact Hwf1. now rewrite Hj.
Qed.

Lemma exists_last {A : Type} (f : A -> bool) (l : list A) :
  existsb f l = true ->
  exists before y after,
    l = before ++ y :: after /\ f y = true /\ forall z, In z after -> f z = false.
Proof.
  induction l as [| a l IH]; simpl; [discriminate |].
  intros H. destruct (existsb f l) eqn:E.
  - destruct (IH eq_refl) as (b & y & af & -> & Hy & Haf).
    exists (a :: b), y, af. auto.
  - rewrite orb_false_r in H. exists [], a, l. repeat split; auto.
    intros z Hz. destruct (f z) eqn:Ez; auto.
    assert (existsb f l = true) by (apply existsb_exists; eauto).
    congruence.
Qed.

(** A relationship that passes the guard leaves an edge, labelled by the
    last relationship that joins the same two nodes. *)
Lemma edge_data_inserted rels rel G u v :
  wf_graph G -> In rel rels -> joins u v rel = true ->
  exists last, In last rels /\ joins u v last = true
               /\ edge_data (fold_left add_relationship rels G) u v
                  = Some (labelled (get_label last)).
Proof.
  intros Hwf Hin Hj.
  destruct (exists_last (joins u v) rels) as (b & y & af & -> & Hy & Haf).
  { apply existsb_exists. eauto. }
  exists y. split; [apply in_elt |]. split; [exact Hy |].
  now apply edge_data_last.
Qed.

Lemma joins_endpoints rel s t : endpoints rel = Some (s, t) -> joins s t rel = true.
Proof.
  unfold joins, same_pair. intros ->. now rewrite !String.eqb_refl.
Qed.

(** ** Colouring *)

Lemma get_paint comm color (nc : Dict.t string) n :
  get n (fold_left (fun nc node => set node color nc) comm nc)
  = if existsb (String.eqb n) comm then Some color else get n nc.
Proof.
  revert nc. induction comm as [| m comm IH]; intros nc; simpl; auto.
  rewrite IH, get_set, (String.eqb_sym m n).
  destruct (existsb (String.eqb n) comm), (String.eqb n m); auto.
Qed.

Lemma color_communities_outside i communities nc n :
  ~ In n (concat communities) ->
  get n (color_communities i communities nc) = get n nc.
Proof.
  revert i nc. induction communities as [| c rest IH]; intros i nc Hn; simpl; auto.
  simpl in Hn. rewrite in_app_iff in Hn.
  rewrite IH by tauto. rewrite get_paint.
  destruct (existsb (String.eqb n) c) eqn:E; auto.
  apply mem_iff in E. tauto.
Qed.

(** With disjoint communities, a node has the colour of its community. *)
Lemma color_communities_at communities : forall i nc j comm n,
  NoDup (concat communities) ->
  nth_error communities j = Some comm -> In n comm ->
  get n (color_communities i communities nc)
  = Some (nth ((i + j) mod length colors) colors "").
Proof.
  induction communities as [| c rest IH]; intros i nc j comm n Hnd Hj Hn.
  - destruct j; discriminate.
  - simpl in Hnd. destruct j as [| j]; simpl in Hj.
    + inversion Hj; subst c. simpl.
      rewrite color_communities_outside.
      * rewrite get_paint. apply mem_iff in Hn. rewrite Hn.
        now rewrite Nat.add_0_r.
      * intros H. revert Hnd. clear -Hn H. induction comm as [| a comm IHc].
        -- destruct Hn.
        -- simpl. intros Hnd. inversion Hnd as [| ? ? Ha Hnd']; subst.
           destruct Hn as [-> | Hn]; [| auto].
           apply Ha. apply in_app_iff. now right.
    + simpl. rewrite (IH (S i) _ j comm n); auto.
      * now rewrite Nat.add_succ_r.
      * clear -Hnd. induction c as [| a c IHc]; simpl in *; auto.
        inversion Hnd; auto.
Qed.

Lemma node_color_create gmc data n :
  In n (nodes (build_structure data)) ->
  node_color (create_networkx_graph gmc data) n
  = Some (match get n (compute_node_colors gmc (build_structure data)) with
          | Some c => c
          | None => default_color
          end).
Proof.
  intros Hn. destruct (attrs_create gmc data n Hn) as (a & Ha & _ & Hc).
  unfold node_color. now rewrite Ha.
Qed.

Lemma node_size_create gmc data n :
  In n (nodes (build_structure data)) ->
  node_size (create_networkx_graph gmc data) n
  = Some (20 + degree (build_structure data) n * 5).
Proof.
  intros Hn. destruct (attrs_create gmc data n Hn) as (a & Ha & Hs & _).
  unfold node_size. now rewrite Ha.
Qed.

Lemma concat_singletons (l : list string) : concat (map (fun n => [n]) l) = l.
Proof.
  induction l as [| x l IH]; simpl; congruence.
Qed.

End GraphFacts.

(** * The properties of the specification *)

Import DictFacts GraphFacts.

(** ** C1: the node set *)

(** C1, as stated, fails: the relationship [{source: "X", target: ""}]
    references the endpoint ["X"], which is neither declared nor inserted,
    because the guard [if source and target] skips the relationship. *)
Lemma node_set_all_endpoints_fails :
  let data := mkData (Some []) (Some [mkRel (Some "X") (Some "") (Some "uses")]) in
  ~ (forall x,
        In x (nodes (create_networkx_graph (fun _ => None) data)) <->
        In x (get_concepts data)
        \/ exists rel, In rel (get_relationships data)
                       /\ (source rel = Some x \/ target rel = Some x)).
Proof.
  intros data H. destruct (H "X") as [_ H'].
  assert (Hin : In "X" (nodes (create_networkx_graph (fun _ => None) data))).
  { apply H'. right. eexists. split; [left; reflexivity | left; reflexivity]. }
  vm_compute in Hin. exact Hin.
Qed.

(** C1, amended: the nodes of the built graph are distinct, and they are
    exactly the declared concepts together with the two endpoints of every
    relationship whose source and target are both present and non-empty. *)
Theorem node_set_exact (gmc : Graph -> option (list (list string)))
    (data : ExtractionResult) :
  let G := create_networkx_graph gmc data in
  NoDup (nodes G)
  /\ forall x,
      In x (nodes G) <->
      In x (get_concepts data)
      \/ exists rel s t,
          In rel (get_relationships data)
          /\ (source rel = Some s /\ target rel = Some t /\ s <> "" /\ t <> "")
          /\ (x = s \/ x = t).
Proof.
  cbv zeta. split.
  - pose proof (wf_create gmc data) as Hwf. unfold nodes.
    rewrite (wf_keys _ Hwf). apply (wf_nodup _ Hwf).
  - intros x. rewrite nodes_create, nodes_build_structure.
    split; (intros [H | (rel & s & t & Hin & He & Hx)]; [now left | right]);
      exists rel, s, t; (split; [exact Hin |]); (split; [| exact Hx]);
      now apply endpoints_Some.
Qed.

(** ** C2: edges and their endpoints *)

(** C2, as stated, fails in its second half: in scenario 3 the target
    ["C"] is not a declared concept, and the relationship is not dropped:
    the edge is there and ["C"] has become a node. *)
Lemma undeclared_target_not_dropped :
  let G := create_networkx_graph (fun _ => None) scenario3 in
  In (mkRel (Some "A") (Some "C") (Some "implies")) (get_relationships scenario3)
  /\ ~ In "C" (get_concepts scenario3)
  /\ edges G = [("A", "C", labelled "implies")]
  /\ In "C" (nodes G).
Proof.
  cbv zeta. split; [now left |]. split.
  - simpl. intros [E | []]. discriminate.
  - split; [reflexivity |]. vm_compute. auto.
Qed.

(** C2, amended: both endpoints of every edge are nodes of the graph; a
    relationship whose source and target are non-empty is never dropped,
    declared or not: its edge is inserted and its endpoints are nodes. *)
Theorem edge_endpoints_are_nodes (gmc : Graph -> option (list (list string)))
    (data : ExtractionResult) :
  let G := create_networkx_graph gmc data in
  (forall u v dd, In (u, v, dd) (edges G) -> In u (nodes G) /\ In v (nodes G))
  /\ (forall rel s t,
         In rel (get_relationships data) ->
         source rel = Some s -> target rel = Some t -> s <> "" -> t <> "" ->
         has_edge G s t = true /\ In s (nodes G) /\ In t (nodes G)).
Proof.
  cbv zeta. pose proof (wf_create gmc data) as Hwf. split.
  - intros u v dd H. now apply (edges_sound _ Hwf) in H.
  - intros rel s t Hin Hs Ht Hs' Ht'.
    assert (He : endpoints rel = Some (s, t)) by now apply endpoints_Some.
    destruct (edge_data_inserted (get_relationships data) rel
                (fold_left (fun G c => add_node G c c) (get_concepts data) empty_graph)
                s t) as (last & _ & _ & Hd);
      auto using wf_add_concepts, wf_empty, joins_endpoints.
    fold (build_structure data) in Hd. rewrite <- (edge_data_create gmc) in Hd.
    split; [| split].
    + unfold has_edge, Dict.contains. unfold edge_data in Hd. now rewrite Hd.
    + eapply (edge_data_node _ Hwf), Hd.
    + rewrite <- (edge_data_sym _ Hwf) in Hd. eapply (edge_data_node _ Hwf), Hd.
Qed.

Lemma edge_endpoints_are_nodes_witness :
  let G := create_networkx_graph (fun _ => None) scenario3 in
  has_edge G "A" "C" = true /\ In "A" (nodes G) /\ In "C" (nodes G).
Proof.
  apply (proj2 (edge_endpoints_are_nodes (fun _ => None) scenario3)
           (mkRel (Some "A") (Some "C") (Some "implies")) "A" "C").
  - left. reflexivity.
  - reflexivity.
  - reflexivity.
  - discriminate.
  - discriminate.
Defined.

(** ** C3: undeclared endpoints *)

(** C3: a relationship with non-empty source and target is inserted
    whether or not its endpoints were declared: both endpoints are nodes
    of the built graph and exactly one edge joins them.  In scenario 3 the
    graph has the two nodes ["A"] and ["C"] and one edge. *)
Theorem undeclared_endpoints_created (gmc : Graph -> option (list (list string)))
    (data : ExtractionResult) (rel : Relationship) (s t : string) :
  In rel (get_relationships data) ->
  source rel = Some s -> target rel = Some t -> s <> "" -> t <> "" ->
  (~ In s (get_concepts data) \/ ~ In t (get_concepts data)) ->
  let G := create_networkx_graph gmc data in
  let G3 := create_networkx_graph gmc scenario3 in
  (In s (nodes G) /\ In t (nodes G) /\ length (edges_between G s t) = 1)
  /\ (nodes G3 = ["A"; "C"]
      /\ edges G3 = [("A", "C", labelled "implies")]
      /\ number_of_nodes G3 = 2 /\ number_of_edges G3 = 1).
Proof.
  intros Hin Hs Ht Hs' Ht' _. cbv zeta.
  pose proof (wf_create gmc data) as Hwf. split.
  - assert (He : endpoints rel = Some (s, t)) by now apply endpoints_Some.
    destruct (edge_data_inserted (get_relationships data) rel
                (fold_left (fun G c => add_node G c c) (get_concepts data) empty_graph)
                s t) as (last & _ & _ & Hd);
      auto using wf_add_concepts, wf_empty, joins_endpoints.
    fold (build_structure data) in Hd. rewrite <- (edge_data_create gmc) in Hd.
    split; [| split].
    + eapply (edge_data_node _ Hwf), Hd.
    + pose proof Hd as Hd'. rewrite <- (edge_data_sym _ Hwf) in Hd'.
      eapply (edge_data_node _ Hwf), Hd'.
    + destruct (edges_between_one _ Hwf _ _ _ Hd) as [E | E]; now rewrite E.
  - assert (Hn : nodes (create_networkx_graph gmc scenario3) = ["A"; "C"]).
    { now rewrite nodes_create. }
    split; [exact Hn |]. split; [reflexivity |]. split; [| reflexivity].
    unfold number_of_nodes. rewrite <- (length_map fst).
    fold (Dict.keys (g_node (create_networkx_graph gmc scenario3))).
    fold (nodes (create_networkx_graph gmc scenario3)). now rewrite Hn.
Qed.

Lemma undeclared_endpoints_created_witness :
  let G3 := create_networkx_graph (fun _ => None) scenario3 in
  (In "A" (nodes G3) /\ In "C" (nodes G3) /\ length (edges_between G3 "A" "C") = 1)
  /\ (nodes G3 = ["A"; "C"]
      /\ edges G3 = [("A", "C", labelled "implies")]
      /\ number_of_nodes G3 = 2 /\ number_of_edges G3 = 1).
Proof.
  apply (undeclared_endpoints_created (fun _ => None) scenario3
           (mkRel (Some "A") (Some "C") (Some "implies")) "A" "C").
  - left. reflexivity.
  - reflexivity.
  - reflexivity.
  - discriminate.
  - discriminate.
  - right. simpl. intros [E | []]. discriminate.
Defined.

(** ** C4: one edge per pair, last label wins *)

(** C4: at most one edge joins any two nodes; the edge joining [u] and [v]
    carries the label of the last relationship that joins them; the graph
    has no more edges than there are relationships, and [len(G.edges())]
    is that number of edges.  In scenario 5, [{A, B, "uses"}] sent twice
    gives one edge, and a second label on the same pair replaces the
    first. *)
Theorem duplicate_pairs_collapse (gmc : Graph -> option (list (list string)))
    (data : ExtractionResult) (before after : list Relationship)
    (rel : Relationship) (u v : string) :
  get_relationships data = before ++ rel :: after ->
  joins u v rel = true ->
  (forall r, In r after -> joins u v r = false) ->
  let G := create_networkx_graph gmc data in
  let G5 := create_networkx_graph gmc scenario5 in
  (edges_between G u v = [(u, v, labelled (get_label rel))]
   \/ edges_between G u v = [(v, u, labelled (get_label rel))])
  /\ (forall a b, length (edges_between G a b) <= 1)
  /\ length (edges G) <= length (get_relationships data)
  /\ number_of_edges G = length (edges G)
  /\ (edges G5 = [("A", "B", labelled "uses")] /\ number_of_edges G5 = 1)
  /\ edges (create_networkx_graph gmc
              (mkData (Some ["A"; "B"])
                 (Some [mkRel (Some "A") (Some "B") (Some "uses");
                        mkRel (Some "B") (Some "A") (Some "has")])))
     = [("A", "B", labelled "has")].
Proof.
  intros Hrels Hj Hafter. cbv zeta.
  pose proof (wf_create gmc data) as Hwf.
  split; [| split; [| split; [| split; [| split]]]].
  - apply (edges_between_one _ Hwf).
    rewrite edge_data_create. unfold build_structure. rewrite Hrels.
    apply edge_data_last; auto using wf_add_concepts, wf_empty.
  - intros a b. apply (edges_between_le1 _ Hwf).
  - rewrite edges_create. apply edges_build_structure_le.
  - apply (number_of_edges_length _ Hwf).
  - split; reflexivity.
  - reflexivity.
Qed.

Lemma duplicate_pairs_collapse_witness :
  let G5 := create_networkx_graph (fun _ => None) scenario5 in
  (edges_between G5 "A" "B" = [("A", "B", labelled "uses")]
   \/ edges_between G5 "A" "B" = [("B", "A", labelled "uses")])
  /\ (forall a b, length (edges_between G5 a b) <= 1)
  /\ length (edges G5) <= length (get_relationships scenario5)
  /\ number_of_edges G5 = length (edges G5)
  /\ (edges G5 = [("A", "B", labelled "uses")] /\ number_of_edges G5 = 1)
  /\ edges (create_networkx_graph (fun _ => None)
              (mkData (Some ["A"; "B"])
                 (Some [mkRel (Some "A") (Some "B") (Some "uses");
                        mkRel (Some "B") (Some "A") (Some "has")])))
     = [("A", "B", labelled "has")].
Proof.
  apply (duplicate_pairs_collapse (fun _ => None) scenario5
           [mkRel (Some "A") (Some "B") (Some "uses")] []
           (mkRel (Some "A") (Some "B") (Some "uses")) "A" "B").
  - reflexivity.
  - reflexivity.
  - intros r [].
Defined.

(** ** C5: degrees *)

(** C5, as stated, fails on a self-loop: the relationship from ["A"] to
    ["A"] gives one edge at ["A"], counted once among its incident edges,
    and [G.degree()] reports 2. *)
Lemma self_loop_degree_is_two :
  let G := create_networkx_graph (fun _ => None)
             (mkData (Some ["A"]) (Some [mkRel (Some "A") (Some "A") (Some "is")])) in
  In "A" (nodes G)
  /\ incident_edges G "A" = [("A", "A", labelled "is")]
  /\ degree G "A" = 2
  /\ degree G "A" <> length (incident_edges G "A").
Proof.
  cbv zeta. split; [vm_compute; auto |]. split; [reflexivity |].
  split; [reflexivity |]. vm_compute. discriminate.
Qed.

(** C5, amended: the degree of a node is the number of edges incident to
    it, a self-loop being counted twice; the degrees of all nodes add up
    to twice the number of edges. *)
Theorem degree_handshake (gmc : Graph -> option (list (list string)))
    (data : ExtractionResult) :
  let G := create_networkx_graph gmc data in
  (forall n, In n (nodes G) ->
             Dict.get n (degrees G) = Some (degree G n)
             /\ degree G n
                = length (incident_edges G n) + (if has_edge G n n then 1 else 0))
  /\ list_sum (map (degree G) (nodes G)) = 2 * length (edges G)
  /\ list_sum (map (degree G) (nodes G)) = 2 * number_of_edges G.
Proof.
  cbv zeta. pose proof (wf_create gmc data) as Hwf. split; [| split].
  - intros n Hn. split.
    + unfold degrees. now rewrite get_map_keys.
    + rewrite (incident_length _ Hwf n Hn). reflexivity.
  - rewrite (sum_degrees_nodes _ Hwf). apply (handshake _ Hwf).
  - rewrite (number_of_edges_length _ Hwf), (sum_degrees_nodes _ Hwf).
    apply (handshake _ Hwf).
Qed.

Lemma degree_handshake_witness :
  let G := create_networkx_graph (fun _ => None) scenario1 in
  Dict.get "A" (degrees G) = Some (degree G "A")
  /\ degree G "A"
     = length (incident_edges G "A") + (if has_edge G "A" "A" then 1 else 0).
Proof.
  apply (proj1 (degree_handshake (fun _ => None) scenario1) "A").
  vm_compute. auto.
Defined.

(** ** C6: labels *)

(** C6, as stated, fails: of two relationships between ["A"] and ["B"] the
    label of the first, ["uses"], is on no edge of the graph. *)
Lemma overwritten_label_is_lost :
  let data := mkData (Some ["A"; "B"])
                (Some [mkRel (Some "A") (Some "B") (Some "uses");
                       mkRel (Some "A") (Some "B") (Some "has")]) in
  let G := create_networkx_graph (fun _ => None) data in
  In (mkRel (Some "A") (Some "B") (Some "uses")) (get_relationships data)
  /\ ~ exists u v dd, In (u, v, dd) (edges G) /\ e_label dd = Some "uses".
Proof.
  cbv zeta. split; [now left |].
  intros (u & v & dd & Hin & Hl). vm_compute in Hin.
  destruct Hin as [E | []]. inversion E; subst. discriminate.
Qed.

(** C6, amended: the label of a relationship whose source and target are
    non-empty is the label of the edge between them, unless a later
    relationship joins the same two nodes. *)
Theorem last_label_round_trip (gmc : Graph -> option (list (list string)))
    (data : ExtractionResult) (before after : list Relationship)
    (rel : Relationship) (s t l : string) :
  get_relationships data = before ++ rel :: after ->
  source rel = Some s -> target rel = Some t -> s <> "" -> t <> "" ->
  relationship rel = Some l ->
  (forall r, In r after -> joins s t r = false) ->
  exists u v dd,
    In (u, v, dd) (edges (create_networkx_graph gmc data))
    /\ same_pair u v s t = true
    /\ e_label dd = Some l.
Proof.
  intros Hrels Hs Ht Hs' Ht' Hl Hafter.
  pose proof (wf_create gmc data) as Hwf.
  assert (He : endpoints rel = Some (s, t)) by now apply endpoints_Some.
  assert (Hd : edge_data (create_networkx_graph gmc data) s t
               = Some (labelled (get_label rel))).
  { rewrite edge_data_create. unfold build_structure. rewrite Hrels.
    apply edge_data_last; auto using wf_add_concepts, wf_empty, joins_endpoints. }
  assert (Hlab : e_label (labelled (get_label rel)) = Some l).
  { unfold get_label. now rewrite Hl. }
  destruct (edges_complete _ Hwf _ _ _ Hd) as [H | H].
  - exists s, t, (labelled (get_label rel)). split; [exact H |]. split; auto.
    unfold same_pair. now rewrite !String.eqb_refl.
  - exists t, s, (labelled (get_label rel)). split; [exact H |]. split; auto.
    unfold same_pair. rewrite !String.eqb_refl. apply orb_true_r.
Qed.

Lemma last_label_round_trip_witness :
  exists u v dd,
    In (u, v, dd) (edges (create_networkx_graph (fun _ => None) scenario1))
    /\ same_pair u v "A" "B" = true
    /\ e_label dd = Some "uses".
Proof.
  apply (last_label_round_trip (fun _ => None) scenario1 [] []
           (mkRel (Some "A") (Some "B") (Some "uses")) "A" "B" "uses").
  - reflexivity.
  - reflexivity.
  - reflexivity.
  - discriminate.
  - discriminate.
  - reflexivity.
  - intros r [].
Defined.

(** ** C7: sizes *)

(** C7: every node of the built graph has size [20 + degree * 5], so an
    isolated node has size 20.  In scenario 1 the graph has the two nodes
    and one edge labelled ["uses"]; both nodes have degree 1 and size 25. *)
Theorem node_size_linear (gmc : Graph -> option (list (list string)))
    (data : ExtractionResult) (n : string) :
  let G := create_networkx_graph gmc data in
  let G1 := create_networkx_graph gmc scenario1 in
  In n (nodes G) ->
  node_size G n = Some (20 + degree G n * 5)
  /\ (degree G n = 0 -> node_size G n = Some 20)
  /\ (nodes G1 = ["A"; "B"] /\ edges G1 = [("A", "B", labelled "uses")]
      /\ number_of_edges G1 = 1
      /\ degree G1 "A" = 1 /\ degree G1 "B" = 1
      /\ node_size G1 "A" = Some 25 /\ node_size G1 "B" = Some 25).
Proof.
  cbv zeta. intros Hn. rewrite nodes_create in Hn.
  assert (Hsz : node_size (create_networkx_graph gmc data) n
                = Some (20 + degree (create_networkx_graph gmc data) n * 5)).
  { rewrite degree_create. now apply node_size_create. }
  split; [exact Hsz |]. split.
  - intros Hd. now rewrite Hsz, Hd.
  - assert (Hn1 : nodes (create_networkx_graph gmc scenario1) = ["A"; "B"])
      by now rewrite nodes_create.
    repeat split; auto.
Qed.

Lemma node_size_linear_witness :
  let G1 := create_networkx_graph (fun _ => None) scenario1 in
  node_size G1 "A" = Some (20 + degree G1 "A" * 5)
  /\ (degree G1 "A" = 0 -> node_size G1 "A" = Some 20)
  /\ (nodes G1 = ["A"; "B"] /\ edges G1 = [("A", "B", labelled "uses")]
      /\ number_of_edges G1 = 1
      /\ degree G1 "A" = 1 /\ degree G1 "B" = 1
      /\ node_size G1 "A" = Some 25 /\ node_size G1 "B" = Some 25).
Proof.
  apply (node_size_linear (fun _ => None) scenario1 "A").
  vm_compute. auto.
Defined.

(** ** C8: colours *)

(** C8, as stated, fails in its example: a graph with zero edges is not a
    graph on which community detection cannot run.  The library returns
    one community per node there, so two declared concepts without a
    relationship get the first two palette colours, not the default one. *)
Lemma zero_edges_are_not_a_fallback :
  let data := mkData (Some ["A"; "B"]) (Some []) in
  let G := create_networkx_graph one_community_per_node data in
  edges G = []
  /\ node_color G "A" = Some "#FF5733"
  /\ node_color G "B" = Some "#33FF57"
  /\ ~ (forall node, In node (nodes G) -> node_color G node = Some "#97c2fc").
Proof.
  cbv zeta. split; [reflexivity |]. split; [reflexivity |]. split; [reflexivity |].
  intros H. specialize (H "A"). discriminate H. vm_compute. auto.
Qed.

(** C8, amended: when community detection returns its communities,
    disjoint sets of nodes, the colour of a node is the palette entry at
    the index of its community modulo 6, the palette having 6 colours, so
    two nodes of one community have the same colour; when community
    detection raises, every node has the default colour.  A graph with
    zero edges is no such case by itself: when detection returns one
    community per node, as the library does there, the node at index [i]
    has the palette entry at [i] modulo 6. *)
Theorem community_colors (gmc : Graph -> option (list (list string)))
    (data : ExtractionResult) :
  let G := create_networkx_graph gmc data in
  (forall communities,
      gmc (build_structure data) = Some communities ->
      NoDup (concat communities) ->
      (forall i comm node,
          nth_error communities i = Some comm -> In node comm -> In node (nodes G) ->
          node_color G node = Some (nth (i mod 6) colors ""))
      /\ (forall comm a b,
             In comm communities -> In a comm -> In b comm ->
             In a (nodes G) -> In b (nodes G) ->
             node_color G a = node_color G b))
  /\ (gmc (build_structure data) = None ->
      forall node, In node (nodes G) -> node_color G node = Some "#97c2fc")
  /\ length colors = 6
  /\ (gmc (build_structure data) = one_community_per_node (build_structure data) ->
      forall i node,
        nth_error (nodes G) i = Some node ->
        node_color G node = Some (nth (i mod 6) colors "")).
Proof.
  cbv zeta.
  assert (Hat : forall communities,
             gmc (build_structure data) = Some communities ->
             NoDup (concat communities) ->
             forall i comm node,
               nth_error communities i = Some comm -> In node comm ->
               In node (nodes (create_networkx_graph gmc data)) ->
               node_color (create_networkx_graph gmc data) node
               = Some (nth (i mod 6) colors "")).
  { intros communities Hrun Hdisj i comm node Hi Hin Hn.
    rewrite nodes_create in Hn.
    rewrite node_color_create by exact Hn.
    unfold compute_node_colors. rewrite Hrun.
    now rewrite (color_communities_at communities 0 [] i comm node). }
  split; [| split; [| split; [reflexivity |]]].
  - intros communities Hrun Hdisj.
    split; [exact (Hat communities Hrun Hdisj) |].
    intros comm a b Hc Ha Hb Hna Hnb.
    apply In_nth_error in Hc. destruct Hc as [i Hi].
    now rewrite (Hat communities Hrun Hdisj i comm a),
      (Hat communities Hrun Hdisj i comm b).
  - intros Hfail node Hn. rewrite nodes_create in Hn.
    rewrite node_color_create by exact Hn.
    unfold compute_node_colors. rewrite Hfail.
    now rewrite (get_map_keys (fun _ => default_color)).
  - intros Hone i node Hi.
    pose proof (wf_build_structure data) as Hwf.
    rewrite nodes_create in Hi.
    apply (Hat _ Hone) with (comm := [node]).
    + rewrite concat_singletons. unfold nodes.
      rewrite (wf_keys _ Hwf). apply (wf_nodup _ Hwf).
    + apply (map_nth_error (fun n : string => [n])), Hi.
    + now left.
    + rewrite nodes_create. eapply nth_error_In, Hi.
Qed.

Lemma community_colors_witness :
  let together := fun G : Graph => Some [nodes G] in
  let apart := mkData (Some ["A"; "B"]) (Some []) in
  (node_color (create_networkx_graph together scenario1) "A"
   = Some (nth (0 mod 6) colors "")
   /\ node_color (create_networkx_graph together scenario1) "A"
      = node_color (create_networkx_graph together scenario1) "B")
  /\ node_color (create_networkx_graph (fun _ => None) scenario1) "A"
     = Some "#97c2fc"
  /\ node_color (create_networkx_graph one_community_per_node apart) "B"
     = Some (nth (1 mod 6) colors "").
Proof.
  cbv zeta. split; [split | split].
  - apply (proj1 (proj1 (community_colors (fun G => Some [nodes G]) scenario1)
                    [["A"; "B"]] eq_refl
                    ltac:(repeat constructor; simpl; intuition discriminate))
             0 ["A"; "B"] "A").
    + reflexivity.
    + simpl. auto.
    + vm_compute. auto.
  - apply (proj2 (proj1 (community_colors (fun G => Some [nodes G]) scenario1)
                    [["A"; "B"]] eq_refl
                    ltac:(repeat constructor; simpl; intuition discriminate))
             ["A"; "B"] "A" "B").
    + simpl. auto.
    + simpl. auto.
    + simpl. auto.
    + vm_compute. auto.
    + vm_compute. auto.
  - apply (proj1 (proj2 (community_colors (fun _ => None) scenario1)) eq_refl "A").
    vm_compute. auto.
  - apply (proj2 (proj2 (proj2 (community_colors one_community_per_node
                                  (mkData (Some ["A"; "B"]) (Some [])))))
             eq_refl 1 "B").
    reflexivity.
Defined.

(** ** C9: a failed extraction *)

(** C9: when the provider call raises, or the content of its first choice
    does not parse, [extract_knowledge_graph] makes the one call, shows one
    error with the text of the exception and returns [None]; [main]
    then shows nothing more: no second call, no metric, no graph. *)
Theorem extraction_failure_stops
    (gmc : Graph -> option (list (list string)))
    (chat : string -> string -> string -> string + list (option string))
    (json : string -> string + ExtractionResult)
    (render : Graph -> string)
    (api_key text e : string) :
  truthy api_key = true ->
  truthy (strip text) = true ->
  (chat api_key system_message (prompt text) = inl e
   \/ exists content rest,
       chat api_key system_message (prompt text) = inr (Some content :: rest)
       /\ json content = inl e) ->
  let call := ApiCall api_key model_name system_message (prompt text) 0 "json_object" in
  extract_knowledge_graph chat json text api_key
  = ([call; StError ("Error calling Groq API: " ++ e)], Ret None)
  /\ main gmc chat json render api_key text true
     = ([StSpinner "⚡ Processing with Llama-3 on Groq..."; call;
         StError ("Error calling Groq API: " ++ e)], Ret tt).
Proof.
  intros Hkey Htext Hfail call.
  assert (Hx : extract_knowledge_graph chat json text api_key
               = ([call; StError ("Error calling Groq API: " ++ e)], Ret None)).
  { unfold extract_knowledge_graph, request, call.
    remember (prompt text) as p.
    destruct Hfail as [Hc | (content & rest & Hc & Hj)]; rewrite Hc.
    - reflexivity.
    - rewrite Hj. reflexivity. }
  split; [exact Hx |].
  unfold main. rewrite Hkey, Htext. cbn [negb]. rewrite Hx. reflexivity.
Qed.

Lemma extraction_failure_stops_witness :
  let chat := fun _ _ _ : string =>
    inr [Some "{concepts: "] : string + list (option string) in
  let json := fun _ : string =>
    inl "Expecting property name enclosed in double quotes" : string + ExtractionResult in
  let call := ApiCall "gsk_key" model_name system_message (prompt "Graphs have nodes.")
                0 "json_object" in
  extract_knowledge_graph chat json "Graphs have nodes." "gsk_key"
  = ([call;
      StError ("Error calling Groq API: "
               ++ "Expecting property name enclosed in double quotes")],
     Ret None)
  /\ main (fun _ => None) chat json (fun _ => "") "gsk_key" "Graphs have nodes." true
     = ([StSpinner "⚡ Processing with Llama-3 on Groq..."; call;
         StError ("Error calling Groq API: "
                  ++ "Expecting property name enclosed in double quotes")],
        Ret tt).
Proof.
  intros chat json.
  apply (extraction_failure_stops (fun _ => None) chat json (fun _ => "")
           "gsk_key" "Graphs have nodes."
           "Expecting property name enclosed in double quotes").
  - reflexivity.
  - reflexivity.
  - right. exists "{concepts: ", []. split; reflexivity.
Defined.

(** ** C10: a relationship without a label *)

(** C10: a relationship with non-empty source and target and no
    ["relationship"] key is inserted with the empty string as its label:
    the edge is there right after the relationship is processed, labelled
    [""]; it is an edge of the built graph, and it still has that label
    there unless a later relationship joins the same two nodes. *)
Theorem missing_label_is_empty (gmc : Graph -> option (list (list string)))
    (data : ExtractionResult) (before after : list Relationship)
    (rel : Relationship) (s t : string) :
  get_relationships data = before ++ rel :: after ->
  source rel = Some s -> target rel = Some t -> s <> "" -> t <> "" ->
  relationship rel = None ->
  let G0 := fold_left (fun G c => add_node G c c) (get_concepts data) empty_graph in
  let G := create_networkx_graph gmc data in
  edge_data (fold_left add_relationship (before ++ [rel]) G0) s t
  = Some (labelled "")
  /\ has_edge G s t = true
  /\ length (edges_between G s t) = 1
  /\ ((forall r, In r after -> joins s t r = false) ->
      edges_between G s t = [(s, t, labelled "")]
      \/ edges_between G s t = [(t, s, labelled "")]).
Proof.
  intros Hrels Hs Ht Hs' Ht' Hl. cbv zeta.
  pose proof (wf_create gmc data) as Hwf.
  assert (He : endpoints rel = Some (s, t)) by now apply endpoints_Some.
  assert (Hlab : get_label rel = "") by (unfold get_label; now rewrite Hl).
  pose proof (joins_endpoints _ _ _ He) as Hj.
  destruct (edge_data_inserted (get_relationships data) rel
              (fold_left (fun G c => add_node G c c) (get_concepts data) empty_graph)
              s t) as (last & _ & _ & Hd);
    auto using wf_add_concepts, wf_empty.
  { rewrite Hrels. apply in_elt. }
  fold (build_structure data) in Hd. rewrite <- (edge_data_create gmc) in Hd.
  split; [| split; [| split]].
  - rewrite <- Hlab. apply (edge_data_last before rel []);
      auto using wf_add_concepts, wf_empty. intros r [].
  - unfold has_edge, Dict.contains. unfold edge_data in Hd. now rewrite Hd.
  - destruct (edges_between_one _ Hwf _ _ _ Hd) as [E | E]; now rewrite E.
  - intros Hafter. rewrite <- Hlab. apply (edges_between_one _ Hwf).
    rewrite edge_data_create. unfold build_structure. rewrite Hrels.
    apply edge_data_last; auto using wf_add_concepts, wf_empty.
Qed.

Lemma missing_label_is_empty_witness :
  let data := mkData (Some ["A"]) (Some [mkRel (Some "A") (Some "B") None]) in
  let G0 := fold_left (fun G c => add_node G c c) (get_concepts data) empty_graph in
  let G := create_networkx_graph (fun _ => None) data in
  edge_data (fold_left add_relationship ([] ++ [mkRel (Some "A") (Some "B") None]) G0)
    "A" "B"
  = Some (labelled "")
  /\ has_edge G "A" "B" = true
  /\ length (edges_between G "A" "B") = 1
  /\ ((forall r, In r [] -> joins "A" "B" r = false) ->
      edges_between G "A" "B" = [("A", "B", labelled "")]
      \/ edges_between G "A" "B" = [("B", "A", labelled "")]).
Proof.
  apply (missing_label_is_empty (fun _ => None)
           (mkData (Some ["A"]) (Some [mkRel (Some "A") (Some "B") None]))
           [] [] (mkRel (Some "A") (Some "B") None) "A" "B").
  - reflexivity.
  - reflexivity.
  - reflexivity.
  - discriminate.
  - discriminate.
  - reflexivity.
Defined.

(** * Further facts *)

Module MoreFacts.
Import Dict.

(** ** The order of the nodes *)

Lemma contains_existsb {V : Type} n (d : Dict.t V) :
  contains n d = existsb (String.eqb n) (keys d).
Proof.
  apply eq_true_iff_eq. now rewrite contains_iff, mem_iff.
Qed.

Lemma keys_set_add_new {V : Type} n (a : V) (d : Dict.t V) :
  keys (set n a d) = add_new (keys d) n.
Proof.
  rewrite keys_set, contains_existsb. reflexivity.
Qed.

Lemma nodes_add_node_order G n t : nodes (add_node G n t) = add_new (nodes G) n.
Proof.
  unfold add_node, nodes.
  destruct (get n (g_node G)); cbn [g_node]; apply keys_set_add_new.
Qed.

Lemma nodes_ensure_node_order G n : nodes (ensure_node G n) = add_new (nodes G) n.
Proof.
  unfold ensure_node, nodes. rewrite contains_existsb. unfold add_new.
  destruct (existsb (String.eqb n) (keys (g_node G))) eqn:E; auto.
  cbn [g_node]. rewrite keys_set_add_new. unfold add_new. now rewrite E.
Qed.

Lemma nodes_add_relationship_order G rel :
  nodes (add_relationship G rel) = fold_left add_new (endpoint_list rel) (nodes G).
Proof.
  rewrite add_relationship_endpoints. unfold endpoint_list.
  destruct (endpoints rel) as [[s t] |]; auto.
  unfold nodes at 1. rewrite g_node_add_edge.
  fold (nodes (ensure_node (ensure_node G s) t)).
  now rewrite !nodes_ensure_node_order.
Qed.

Lemma nodes_add_relationships_order rels G :
  nodes (fold_left add_relationship rels G)
  = fold_left add_new (flat_map endpoint_list rels) (nodes G).
Proof.
  revert G. induction rels as [| rel rels IH]; intros G; simpl; auto.
  now rewrite IH, fold_left_app, nodes_add_relationship_order.
Qed.

Lemma nodes_add_concepts_order cs G :
  nodes (fold_left (fun G c => add_node G c c) cs G) = fold_left add_new cs (nodes G).
Proof.
  revert G. induction cs as [| c cs IH]; intros G; simpl; auto.
  now rewrite IH, nodes_add_node_order.
Qed.

Lemma nodes_build_structure_order data :
  nodes (build_structure data)
  = first_seen (get_concepts data ++ flat_map endpoint_list (get_relationships data)).
Proof.
  unfold build_structure, first_seen.
  now rewrite nodes_add_relationships_order, nodes_add_concepts_order, fold_left_app.
Qed.

Lemma length_add_new l acc :
  length (fold_left add_new l acc) <= length acc + length l.
Proof.
  revert acc. induction l as [| x l IH]; intros acc; simpl; [lia |].
  specialize (IH (add_new acc x)). unfold add_new in *.
  destruct (existsb (String.eqb x) acc); [lia |].
  rewrite length_app in IH. simpl in IH. lia.
Qed.

Lemma length_endpoints rels :
  length (flat_map endpoint_list rels) <= 2 * length rels.
Proof.
  induction rels as [| rel rels IH]; simpl; [lia |].
  rewrite length_app. unfold endpoint_list at 1.
  destruct (endpoints rel) as [[s t] |]; simpl; lia.
Qed.

Lemma number_of_nodes_length G : number_of_nodes G = length (nodes G).
Proof. unfold number_of_nodes, nodes, keys. now rewrite length_map. Qed.

(** ** The edge between two nodes *)

Lemma adj_of_add_concepts cs G n :
  wf_graph G ->
  adj_of (g_adj (fold_left (fun G c => add_node G c c) cs G)) n = adj_of (g_adj G) n.
Proof.
  revert G. induction cs as [| c cs IH]; intros G Hwf; simpl; auto.
  rewrite IH by now apply wf_add_node. now apply adj_of_add_node.
Qed.

Lemma edge_data_fold rels : forall G u v,
  wf_graph G ->
  edge_data (fold_left add_relationship rels G) u v
  = match last_joining u v rels with
    | Some rel => Some (labelled (get_label rel))
    | None => edge_data G u v
    end.
Proof.
  induction rels as [| rel rels IH] using rev_ind; intros G u v Hwf; auto.
  rewrite fold_left_app. simpl. unfold last_joining. rewrite rev_unit. simpl.
  rewrite edge_data_add_relationship by now apply wf_add_relationships.
  destruct (joins u v rel); [reflexivity | now apply IH].
Qed.

Lemma edge_data_build_structure data u v :
  edge_data (build_structure data) u v
  = match last_joining u v (get_relationships data) with
    | Some rel => Some (labelled (get_label rel))
    | None => None
    end.
Proof.
  unfold build_structure.
  rewrite edge_data_fold by (apply wf_add_concepts, wf_empty).
  destruct (last_joining u v (get_relationships data)); auto.
  unfold edge_data. now rewrite adj_of_add_concepts by apply wf_empty.
Qed.

Lemma last_joining_Some u v rels rel :
  last_joining u v rels = Some rel -> In rel rels /\ joins u v rel = true.
Proof.
  unfold last_joining. intros H. apply find_some in H.
  now rewrite <- in_rev in H.
Qed.

Lemma last_joining_None u v rels :
  last_joining u v rels = None <-> forall rel, In rel rels -> joins u v rel = false.
Proof.
  unfold last_joining. split.
  - intros H rel Hin. apply (find_none _ _ H). now apply in_rev in Hin.
  - intros H. destruct (find (joins u v) (rev rels)) as [rel |] eqn:E; auto.
    apply find_some in E. destruct E as [Hin Hj].
    apply in_rev in Hin. rewrite (H rel Hin) in Hj. discriminate.
Qed.

(** ** Titles *)

Lemma node_title_add_node G c n :
  node_title (add_node G c c) n = if String.eqb c n then Some c else node_title G n.
Proof.
  unfold node_title, add_node.
  destruct (get c (g_node G)); cbn [g_node]; rewrite get_set;
    destruct (String.eqb c n); reflexivity.
Qed.

Lemma node_title_ensure_node G m n : node_title (ensure_node G m) n = node_title G n.
Proof.
  unfold node_title, ensure_node, contains.
  destruct (get m (g_node G)) eqn:E; auto. cbn [g_node]. rewrite get_set.
  destruct (String.eqb_spec m n) as [-> | Hne]; auto. now rewrite E.
Qed.

Lemma node_title_add_relationships rels G n :
  node_title (fold_left add_relationship rels G) n = node_title G n.
Proof.
  revert G. induction rels as [| rel rels IH]; intros G; simpl; auto.
  rewrite IH, add_relationship_endpoints.
  destruct (endpoints rel) as [[s t] |]; auto.
  unfold node_title at 1. rewrite g_node_add_edge.
  fold (node_title (ensure_node (ensure_node G s) t) n).
  now rewrite !node_title_ensure_node.
Qed.

Lemma node_title_add_concepts cs G n :
  node_title (fold_left (fun G c => add_node G c c) cs G) n
  = if existsb (String.eqb n) cs then Some n else node_title G n.
Proof.
  revert G. induction cs as [| c cs IH]; intros G; simpl; auto.
  rewrite IH, node_title_add_node, (String.eqb_sym n c).
  destruct (String.eqb_spec c n) as [-> | Hne]; simpl.
  - now destruct (existsb (String.eqb n) cs).
  - reflexivity.
Qed.

Lemma title_apply_attributes degs cols d m n :
  In m (keys d) ->
  option_map n_title (get n (apply_attributes degs cols d m))
  = option_map n_title (get n d).
Proof.
  intros Hm. unfold apply_attributes. rewrite get_set.
  destruct (String.eqb_spec m n) as [-> | Hne]; auto.
  destruct (get n d) eqn:E; auto.
  apply get_None_iff in E. contradiction.
Qed.

Lemma title_fold_apply_attributes degs cols ns d n :
  (forall m, In m ns -> In m (keys d)) ->
  option_map n_title (get n (fold_left (apply_attributes degs cols) ns d))
  = option_map n_title (get n d).
Proof.
  revert d. induction ns as [| m ns IH]; intros d H; simpl; auto.
  rewrite IH.
  - apply title_apply_attributes. apply H. now left.
  - intros k Hk. rewrite keys_apply_attributes; apply H; simpl; auto.
Qed.

Lemma node_title_create gmc data n :
  node_title (create_networkx_graph gmc data) n = node_title (build_structure data) n.
Proof.
  unfold node_title, create_networkx_graph. cbn [g_node].
  pose proof (title_fold_apply_attributes
                (degrees (build_structure data))
                (compute_node_colors gmc (build_structure data))
                (nodes (build_structure data)) (g_node (build_structure data)) n
                (fun m H => H)) as H.
  destruct (get n (fold_left _ _ _)), (get n (g_node (build_structure data)));
    simpl in H; congruence.
Qed.

(** ** Colours and fonts *)

Lemma palette_entry i : In (nth (i mod length colors) colors "") colors.
Proof. apply nth_In. apply Nat.mod_upper_bound. discriminate. Qed.

Lemma get_color_communities communities : forall i nc n c,
  get n (color_communities i communities nc) = Some c ->
  In c colors \/ get n nc = Some c.
Proof.
  induction communities as [| comm rest IH]; intros i nc n c H; simpl in H; auto.
  apply IH in H. destruct H as [H | H]; auto.
  rewrite get_paint in H. destruct (existsb (String.eqb n) comm); auto.
  inversion H. left. apply palette_entry.
Qed.

Lemma node_color_range gmc G n :
  let c := match get n (compute_node_colors gmc G) with
           | Some c => c
           | None => default_color
           end in
  c = default_color \/ In c colors.
Proof.
  cbv zeta. unfold compute_node_colors. destruct (gmc G) as [communities |].
  - destruct (get n (color_communities 0 communities [])) as [c |] eqn:E; auto.
    apply get_color_communities in E. destruct E as [E | E]; auto. discriminate.
  - destruct (get n (map _ (nodes G))) as [c |] eqn:E; auto.
    apply get_Some_In, in_map_iff in E. destruct E as (k & E & _).
    inversion E. auto.
Qed.

(** ** Isolated nodes *)

Lemma degree_zero_iff G n : degree G n = 0 <-> adj_of (g_adj G) n = [].
Proof.
  unfold degree, degree_of. split.
  - destruct (adj_of (g_adj G) n); simpl; [auto | lia].
  - now intros ->.
Qed.

Lemma adj_of_nil_iff G n :
  adj_of (g_adj G) n = [] <-> forall v, edge_data G n v = None.
Proof.
  unfold edge_data. split.
  - now intros ->.
  - intros H. destruct (adj_of (g_adj G) n) as [| [k x] l]; auto.
    specialize (H k). simpl in H. rewrite String.eqb_refl in H. discriminate.
Qed.

Lemma touches_iff n rel :
  In n (endpoint_list rel) <-> exists v, joins n v rel = true.
Proof.
  unfold endpoint_list, joins, same_pair.
  destruct (endpoints rel) as [[s t] |]; simpl.
  - split.
    + intros [<- | [<- | []]].
      * exists t. now rewrite !String.eqb_refl.
      * exists s. rewrite !String.eqb_refl. apply orb_true_r.
    + intros (v & H).
      destruct (String.eqb_spec s n), (String.eqb_spec t n); auto.
      simpl in H. rewrite andb_false_r in H. discriminate.
  - split; [tauto | intros (v & H); discriminate].
Qed.

(** ** Relationships read in the other direction *)

Lemma joins_swap u v rel : joins u v (swap_direction rel) = joins u v rel.
Proof.
  unfold joins, endpoints, swap_direction, same_pair. simpl.
  destruct (source rel) as [s |], (target rel) as [t |]; auto.
  rewrite (andb_comm (truthy t)). destruct (truthy s && truthy t); auto.
  rewrite orb_comm. f_equal; apply andb_comm.
Qed.

Lemma last_joining_swap u v rels :
  last_joining u v (map swap_direction rels)
  = option_map swap_direction (last_joining u v rels).
Proof.
  unfold last_joining. rewrite <- map_rev.
  induction (rev rels) as [| rel l IH]; simpl; auto.
  rewrite joins_swap. now destruct (joins u v rel).
Qed.

Lemma endpoint_list_swap rel x :
  In x (endpoint_list (swap_direction rel)) <-> In x (endpoint_list rel).
Proof.
  rewrite !touches_iff. split; intros (v & H); exists v;
    [now rewrite joins_swap in H | now rewrite joins_swap].
Qed.

(** ** Blank text *)

Lemma lstrip_all_space s : all_space s = true -> lstrip s = "".
Proof.
  induction s as [| c s IH]; simpl; auto.
  destruct (is_space c); simpl; [exact IH | discriminate].
Qed.

Lemma strip_all_space s : all_space s = true -> strip s = "".
Proof.
  intros H. unfold strip. now rewrite lstrip_all_space.
Qed.



(** ** The extraction *)

Lemma extract_cases chat json text api_key :
  let call := ApiCall api_key model_name system_message (prompt text) 0 "json_object" in
  (exists data content rest,
      chat api_key system_message (prompt text) = inr (Some content :: rest)
      /\ json content = inr data
      /\ extract_knowledge_graph chat json text api_key = ([call], Ret (Some data)))
  \/ (exists e,
         (forall content rest data,
             chat api_key system_message (prompt text) = inr (Some content :: rest) ->
             json content <> inr data)
         /\ extract_knowledge_graph chat json text api_key
            = ([call; StError ("Error calling Groq API: " ++ e)], Ret None)).
Proof.
  intros call. unfold extract_knowledge_graph, request. fold call.
  remember (prompt text) as p.
  destruct (chat api_key system_message p) as [e | [| [content |] rest]] eqn:Hc.
  - right. exists e. split; [discriminate | reflexivity].
  - right. eexists. split; [discriminate | reflexivity].
  - destruct (json content) as [e | data] eqn:Hj.
    + right. exists e. split; [| reflexivity].
      intros c r d E. inversion E; subst. congruence.
    + left. exists data, content, rest. auto.
  - right. eexists. split; [discriminate | reflexivity].
Qed.

Lemma add_new_not_nil acc x : add_new acc x <> [].
Proof.
  unfold add_new. destruct (existsb (String.eqb x) acc) eqn:E.
  - intros ->. discriminate.
  - destruct acc; discriminate.
Qed.

Lemma fold_add_new_not_nil l : forall acc,
  acc <> [] -> fold_left add_new l acc <> [].
Proof.
  induction l as [| y l IH]; intros acc Hacc; simpl; auto.
  apply IH, add_new_not_nil.
Qed.

Lemma first_seen_nil l : first_seen l = [] <-> l = [].
Proof.
  split; [| now intros ->].
  destruct l as [| x l]; auto. unfold first_seen. simpl. intros H.
  now apply fold_add_new_not_nil in H; [| apply add_new_not_nil].
Qed.

Lemma nodes_create_order gmc data :
  nodes (create_networkx_graph gmc data)
  = first_seen (get_concepts data
                ++ flat_map endpoint_list (get_relationships data)).
Proof.
  rewrite nodes_create. apply nodes_build_structure_order.
Qed.

Lemma In_fold_add_new l : forall acc x,
  In x (fold_left add_new l acc) <-> In x acc \/ In x l.
Proof.
  induction l as [| y l IH]; intros acc x; simpl; [tauto |].
  rewrite IH. unfold add_new.
  destruct (existsb (String.eqb y) acc) eqn:E.
  - apply mem_iff in E. intuition congruence.
  - rewrite in_app_iff. simpl. intuition congruence.
Qed.

Lemma In_first_seen l x : In x l <-> In x (first_seen l).
Proof.
  unfold first_seen. rewrite In_fold_add_new. simpl. tauto.
Qed.

(** ** The credential lookup *)

Lemma get_groq_api_key_order secrets env typed :
  get_groq_api_key secrets env typed
  = if truthy (match secrets with inr (Some v) => v | _ => "" end)
    then (match secrets with inr (Some v) => v | _ => "" end, [])
    else if truthy (match env with Some v => v | None => "" end)
         then (match env with Some v => v | None => "" end, [])
         else (typed, sidebar_prompt).
Proof.
  unfold get_groq_api_key, falsy.
  destruct secrets as [e | [v |]]; cbn [negb truthy String.eqb];
    try (destruct env as [w |]; [destruct (truthy w) | ]; reflexivity).
  destruct (truthy v) eqn:Hv; cbn [negb].
  - now rewrite Hv.
  - destruct env as [w |]; [destruct (truthy w) | ]; reflexivity.
Qed.

(** ** Overlapping communities *)

Lemma color_communities_app l1 : forall i l2 nc,
  color_communities i (l1 ++ l2) nc
  = color_communities (i + length l1) l2 (color_communities i l1 nc).
Proof.
  induction l1 as [| c l1 IH]; intros i l2 nc; simpl.
  - now rewrite Nat.add_0_r.
  - rewrite IH. now rewrite Nat.add_succ_r.
Qed.

Lemma not_in_concat (n : string) (l : list (list string)) :
  (forall c, In c l -> ~ In n c) -> ~ In n (concat l).
Proof.
  intros H Hin. apply in_concat in Hin. destruct Hin as (c & Hc & Hn).
  exact (H c Hc Hn).
Qed.

End MoreFacts.

(** * Further properties of the code *)

Import MoreFacts.

(** ** The graph builder *)

(** X1: the nodes of the built graph, in the order [G.nodes()] gives them,
    are the declared concepts followed by the endpoints of the inserted
    relationships, source before target, each string at its first
    occurrence only. *)
Theorem nodes_in_first_seen_order (gmc : Graph -> option (list (list string)))
    (data : ExtractionResult) :
  nodes (create_networkx_graph gmc data)
  = first_seen (get_concepts data
                ++ flat_map endpoint_list (get_relationships data)).
Proof.
  rewrite nodes_create. unfold build_structure, first_seen.
  now rewrite nodes_add_relationships_order, nodes_add_concepts_order, fold_left_app.
Qed.

(** X2: the graph has at most as many nodes as there are declared
    concepts plus two per relationship, and [len(G.nodes())] is the number
    of distinct nodes. *)
Theorem node_count_bound (gmc : Graph -> option (list (list string)))
    (data : ExtractionResult) :
  let G := create_networkx_graph gmc data in
  number_of_nodes G = length (nodes G)
  /\ number_of_nodes G
     <= length (get_concepts data) + 2 * length (get_relationships data).
Proof.
  cbv zeta. rewrite number_of_nodes_length. split; [reflexivity |].
  rewrite nodes_create_order. unfold first_seen.
  pose proof (length_add_new
                (get_concepts data ++ flat_map endpoint_list (get_relationships data))
                []) as H.
  rewrite length_app in H.
  pose proof (length_endpoints (get_relationships data)). simpl in H. lia.
Qed.

(** X3: the built graph has no node exactly when no concept is declared
    and the guard skips every relationship. *)
Theorem no_node_iff (gmc : Graph -> option (list (list string)))
    (data : ExtractionResult) :
  number_of_nodes (create_networkx_graph gmc data) = 0
  <-> get_concepts data = []
      /\ forall rel, In rel (get_relationships data) -> endpoints rel = None.
Proof.
  rewrite number_of_nodes_length, length_zero_iff_nil,
    nodes_create_order, first_seen_nil.
  split.
  - intros H. apply app_eq_nil in H. destruct H as [Hc Hr]. split; auto.
    intros rel Hin. destruct (endpoints rel) as [[s t] |] eqn:E; auto.
    assert (Hs : In s (flat_map endpoint_list (get_relationships data))).
    { apply in_flat_map. exists rel. split; auto.
      unfold endpoint_list. rewrite E. now left. }
    rewrite Hr in Hs. destruct Hs.
  - intros [Hc Hr]. rewrite Hc. simpl.
    induction (get_relationships data) as [| rel rels IH]; simpl; auto.
    unfold endpoint_list at 1. rewrite (Hr rel) by now left.
    simpl. apply IH. intros. apply Hr. now right.
Qed.

(** X4: two nodes are adjacent exactly when some relationship that passes
    the guard joins them, in either direction; the attributes of their
    edge are those written by the last such relationship, and they are the
    same from both ends. *)
Theorem edge_is_last_joining (gmc : Graph -> option (list (list string)))
    (data : ExtractionResult) (u v : string) :
  let G := create_networkx_graph gmc data in
  edge_data G u v
  = match last_joining u v (get_relationships data) with
    | Some rel => Some (labelled (get_label rel))
    | None => None
    end
  /\ has_edge G u v = existsb (joins u v) (get_relationships data)
  /\ edge_data G v u = edge_data G u v.
Proof.
  cbv zeta.
  assert (Hd : edge_data (create_networkx_graph gmc data) u v
               = match last_joining u v (get_relationships data) with
                 | Some rel => Some (labelled (get_label rel))
                 | None => None
                 end).
  { rewrite edge_data_create. apply edge_data_build_structure. }
  split; [exact Hd |]. split.
  - unfold has_edge, Dict.contains. unfold edge_data in Hd. rewrite Hd.
    destruct (last_joining u v (get_relationships data)) as [rel |] eqn:E.
    + apply last_joining_Some in E. destruct E as [Hin Hj].
      symmetry. apply existsb_exists. eauto.
    + symmetry. apply not_true_iff_false. intros H.
      apply existsb_exists in H. destruct H as (rel & Hin & Hj).
      rewrite (proj1 (last_joining_None u v _) E rel Hin) in Hj. discriminate.
  - apply edge_data_sym, wf_create.
Qed.

(** X5: every edge reported by [G.edges(data=True)] comes from a
    relationship of the input that joins its two endpoints; its title and
    its label are both the label of that relationship. *)
Theorem edges_come_from_relationships (gmc : Graph -> option (list (list string)))
    (data : ExtractionResult) (u v : string) (dd : EdgeAttr) :
  In (u, v, dd) (edges (create_networkx_graph gmc data)) ->
  exists rel,
    In rel (get_relationships data)
    /\ joins u v rel = true
    /\ e_label dd = Some (get_label rel)
    /\ e_title dd = Some (get_label rel).
Proof.
  intros H. apply (edges_sound _ (wf_create gmc data)) in H.
  destruct H as [H _]. rewrite edge_data_create, edge_data_build_structure in H.
  destruct (last_joining u v (get_relationships data)) as [rel |] eqn:E;
    [| discriminate].
  apply last_joining_Some in E. destruct E as [Hin Hj].
  exists rel. inversion H. auto.
Qed.

Lemma edges_come_from_relationships_witness :
  exists rel,
    In rel (get_relationships scenario1)
    /\ joins "A" "B" rel = true
    /\ e_label (labelled "uses") = Some (get_label rel)
    /\ e_title (labelled "uses") = Some (get_label rel).
Proof.
  apply (edges_come_from_relationships (fun _ => None) scenario1 "A" "B"
           (labelled "uses")).
  vm_compute. auto.
Defined.

(** X6: the direction of the relationships does not matter: with source
    and target exchanged in every relationship, the graph has the same
    nodes and the same edge, with the same attributes, between any two
    nodes. *)
Theorem direction_does_not_matter (gmc : Graph -> option (list (list string)))
    (data : ExtractionResult) :
  let G := create_networkx_graph gmc data in
  let G' := create_networkx_graph gmc (swap_all data) in
  (forall x, In x (nodes G') <-> In x (nodes G))
  /\ (forall u v, edge_data G' u v = edge_data G u v).
Proof.
  cbv zeta.
  assert (Hc : get_concepts (swap_all data) = get_concepts data) by reflexivity.
  assert (Hr : get_relationships (swap_all data)
               = map swap_direction (get_relationships data)).
  { unfold get_relationships, swap_all. simpl. now destruct (relationships data). }
  split.
  - intros x. rewrite !nodes_create_order, <- !In_first_seen.
    rewrite Hc, Hr, !in_app_iff, !in_flat_map. split.
    + intros [H | (rel & Hin & Hx)]; [now left | right].
      apply in_map_iff in Hin. destruct Hin as (rel0 & <- & Hin).
      exists rel0. split; auto. now apply endpoint_list_swap.
    + intros [H | (rel & Hin & Hx)]; [now left | right].
      exists (swap_direction rel). split; [now apply in_map |].
      now apply endpoint_list_swap.
  - intros u v. rewrite !edge_data_create, !edge_data_build_structure, Hr.
    rewrite last_joining_swap.
    now destruct (last_joining u v (get_relationships data)).
Qed.

(** X7: a node that was declared as a concept has its own name as title;
    a node that only an edge created has no title. *)
Theorem titles_of_declared_concepts (gmc : Graph -> option (list (list string)))
    (data : ExtractionResult) (n : string) :
  node_title (create_networkx_graph gmc data) n
  = if existsb (String.eqb n) (get_concepts data) then Some n else None.
Proof.
  rewrite node_title_create. unfold build_structure.
  rewrite node_title_add_relationships, node_title_add_concepts.
  reflexivity.
Qed.

(** X8: every node of the built graph carries the three visual attributes:
    the fixed font, a size of at least 20, and a colour that is one of the
    six palette colours or the default colour. *)
Theorem every_node_is_styled (gmc : Graph -> option (list (list string)))
    (data : ExtractionResult) (n : string) :
  let G := create_networkx_graph gmc data in
  In n (nodes G) ->
  node_font_of G n = Some node_font
  /\ (exists size, node_size G n = Some size /\ 20 <= size)
  /\ (exists color, node_color G n = Some color
                    /\ (color = default_color \/ In color colors)).
Proof.
  cbv zeta. intros Hn. rewrite nodes_create in Hn.
  destruct (get_fold_apply_attributes
              (degrees (build_structure data))
              (compute_node_colors gmc (build_structure data))
              n (nodes (build_structure data)) (g_node (build_structure data)))
    as (a & Ha & Hs & Hc & Hf); [now left |].
  unfold node_font_of, node_size, node_color, create_networkx_graph.
  cbn [g_node]. rewrite Ha. split; [exact Hf |]. split.
  - eexists. split; [exact Hs | lia].
  - eexists. split; [exact Hc |]. apply node_color_range.
Qed.

Lemma every_node_is_styled_witness :
  let G := create_networkx_graph (fun _ => None) scenario3 in
  node_font_of G "C" = Some node_font
  /\ (exists size, node_size G "C" = Some size /\ 20 <= size)
  /\ (exists color, node_color G "C" = Some color
                    /\ (color = default_color \/ In color colors)).
Proof.
  apply (every_node_is_styled (fun _ => None) scenario3 "C").
  vm_compute. auto.
Defined.

(** X9: a node has the smallest size, 20, exactly when no inserted
    relationship has it as source or target. *)
Theorem smallest_size_iff_isolated (gmc : Graph -> option (list (list string)))
    (data : ExtractionResult) (n : string) :
  let G := create_networkx_graph gmc data in
  In n (nodes G) ->
  (node_size G n = Some 20
   <-> forall rel, In rel (get_relationships data) -> ~ In n (endpoint_list rel)).
Proof.
  cbv zeta. intros Hn. rewrite nodes_create in Hn.
  rewrite node_size_create by exact Hn.
  assert (Hz : degree (build_structure data) n = 0
               <-> forall rel, In rel (get_relationships data)
                               -> ~ In n (endpoint_list rel)).
  { rewrite degree_zero_iff, adj_of_nil_iff. split.
    - intros H rel Hin Ht. apply touches_iff in Ht. destruct Ht as (v & Hj).
      specialize (H v). rewrite edge_data_build_structure in H.
      destruct (last_joining n v (get_relationships data)) eqn:E; [discriminate |].
      rewrite (proj1 (last_joining_None n v _) E rel Hin) in Hj. discriminate.
    - intros H v. rewrite edge_data_build_structure.
      destruct (last_joining n v (get_relationships data)) as [rel |] eqn:E; auto.
      apply last_joining_Some in E. destruct E as [Hin Hj].
      exfalso. apply (H rel Hin). apply touches_iff. eauto. }
  rewrite <- Hz. split.
  - intros H. inversion H. lia.
  - intros ->. reflexivity.
Qed.

Lemma smallest_size_iff_isolated_witness :
  let data := mkData (Some ["A"; "B"; "C"])
                (Some [mkRel (Some "A") (Some "B") (Some "uses")]) in
  node_size (create_networkx_graph (fun _ => None) data) "C" = Some 20
  <-> forall rel, In rel (get_relationships data) -> ~ In "C" (endpoint_list rel).
Proof.
  apply (smallest_size_iff_isolated (fun _ => None)
           (mkData (Some ["A"; "B"; "C"])
              (Some [mkRel (Some "A") (Some "B") (Some "uses")])) "C").
  vm_compute. auto.
Defined.

(** ** The extraction and the run of a request *)

(** X10: whatever the provider and the parser do, [extract_knowledge_graph]
    makes exactly one call and raises nothing.  It returns the parsed data
    and shows nothing exactly when the first choice has a content that
    parses; in every other case (the call raises, no choice, no content,
    no parse) it shows one error and returns [None]. *)
Theorem extraction_outcome
    (chat : string -> string -> string -> string + list (option string))
    (json : string -> string + ExtractionResult)
    (text api_key : string) :
  let call := ApiCall api_key model_name system_message (prompt text) 0 "json_object" in
  (exists data content rest,
      chat api_key system_message (prompt text) = inr (Some content :: rest)
      /\ json content = inr data
      /\ extract_knowledge_graph chat json text api_key = ([call], Ret (Some data)))
  \/ (exists e,
         (forall content rest data,
             chat api_key system_message (prompt text) = inr (Some content :: rest) ->
             json content <> inr data)
         /\ extract_knowledge_graph chat json text api_key
            = ([call; StError ("Error calling Groq API: " ++ e)], Ret None)).
Proof.
  intros call. unfold extract_knowledge_graph, request. fold call.
  remember (prompt text) as p.
  destruct (chat api_key system_message p) as [e | [| [content |] rest]] eqn:Hc.
  - right. exists e. split; [discriminate | reflexivity].
  - right. eexists. split; [discriminate | reflexivity].
  - destruct (json content) as [e | data] eqn:Hj.
    + right. exists e. split; [| reflexivity].
      intros c r d E. inversion E; subst. congruence.
    + left. exists data, content, rest. auto.
  - right. eexists. split; [discriminate | reflexivity].
Qed.

(** X11: when the button is pressed on a text of white space only (or on
    no text), the run shows the one warning and calls nobody. *)
Theorem blank_text_is_refused
    (gmc : Graph -> option (list (list string)))
    (chat : string -> string -> string -> string + list (option string))
    (json : string -> string + ExtractionResult)
    (render : Graph -> string)
    (api_key text : string) :
  truthy api_key = true ->
  all_space text = true ->
  main gmc chat json render api_key text true
  = ([StWarning "Please enter some text first."], Ret tt).
Proof.
  intros Hkey Hblank. unfold main.
  rewrite Hkey, (strip_all_space text Hblank). reflexivity.
Qed.

Lemma blank_text_is_refused_witness :
  main (fun _ => None) (fun _ _ _ => inr []) (fun _ => inl "") (fun _ => "")
    "gsk_key" "   " true
  = ([StWarning "Please enter some text first."], Ret tt).
Proof.
  apply (blank_text_is_refused (fun _ => None) (fun _ _ _ => inr [])
           (fun _ => inl "") (fun _ => "") "gsk_key" "   ").
  - reflexivity.
  - reflexivity.
Defined.

(** X12: a run calls the provider once when there is a key, the button is
    pressed and the text is not blank, and never otherwise: there is no
    second call, whatever the answer. *)
Theorem one_call_per_request
    (gmc : Graph -> option (list (list string)))
    (chat : string -> string -> string -> string + list (option string))
    (json : string -> string + ExtractionResult)
    (render : Graph -> string)
    (api_key text : string) (button : bool) :
  api_calls (fst (main gmc chat json render api_key text button))
  = if truthy api_key && button && truthy (strip text) then 1 else 0.
Proof.
  unfold main.
  destruct (truthy api_key) eqn:Hkey; [| reflexivity].
  destruct button; [| reflexivity].
  destruct (truthy (strip text)) eqn:Htext; [| reflexivity].
  cbn [negb andb].
  destruct (extract_cases chat json text api_key)
    as [(data & c & r & _ & _ & Hx) | (e & _ & Hx)];
    rewrite Hx; cbv [bind emit ret]; [| reflexivity].
  destruct (data_truthy data); [| reflexivity].
  destruct (Nat.ltb 0 (number_of_nodes (create_networkx_graph gmc data)));
    reflexivity.
Qed.

(** X13: when the extraction succeeds and the graph has a node, the run
    shows the number of nodes as "Concepts Found", the number of edges of
    the edge view as "Connections", and hands the graph to the renderer,
    whose markup it shows 650 high. *)
Theorem graph_is_shown
    (gmc : Graph -> option (list (list string)))
    (chat : string -> string -> string -> string + list (option string))
    (json : string -> string + ExtractionResult)
    (render : Graph -> string)
    (api_key text content : string) (rest : list (option string))
    (data : ExtractionResult) :
  truthy api_key = true ->
  truthy (strip text) = true ->
  chat api_key system_message (prompt text) = inr (Some content :: rest) ->
  json content = inr data ->
  let G := create_networkx_graph gmc data in
  nodes G <> [] ->
  main gmc chat json render api_key text true
  = ([StSpinner "⚡ Processing with Llama-3 on Groq...";
      ApiCall api_key model_name system_message (prompt text) 0 "json_object";
      StMetric "Concepts Found" (length (nodes G));
      StMetric "Connections" (length (edges G));
      StSubheader "Interactive Graph Result:";
      ComponentsHtml (render G) 650], Ret tt).
Proof.
  intros Hkey Htext Hc Hj G Hn. subst G.
  destruct (extract_cases chat json text api_key)
    as [(data' & c & r & Hc' & Hj' & Hx) | (e & Hno & _)].
  2: { exfalso. apply (Hno content rest data Hc Hj). }
  rewrite Hc in Hc'. inversion Hc'; subst c r.
  rewrite Hj in Hj'. inversion Hj'; subst data'.
  assert (Ht : data_truthy data = true).
  { unfold data_truthy. destruct (concepts data) eqn:E1; auto.
    destruct (relationships data) eqn:E2; auto.
    exfalso. apply Hn. rewrite nodes_create_order.
    unfold get_concepts, get_relationships. now rewrite E1, E2. }
  assert (Hpos : Nat.ltb 0 (number_of_nodes (create_networkx_graph gmc data)) = true).
  { apply Nat.ltb_lt. rewrite number_of_nodes_length.
    destruct (nodes (create_networkx_graph gmc data)); simpl; [contradiction | lia]. }
  unfold main. rewrite Hkey, Htext. cbn [negb]. rewrite Hx.
  cbv [bind emit ret]. rewrite Ht, Hpos.
  rewrite (number_of_edges_length _ (wf_create gmc data)), number_of_nodes_length.
  reflexivity.
Qed.

Lemma graph_is_shown_witness :
  let G := create_networkx_graph (fun _ => None) scenario1 in
  main (fun _ => None) (fun _ _ _ => inr [Some "{...}"]) (fun _ => inr scenario1)
    (fun _ => "<html>") "gsk_key" "A uses B." true
  = ([StSpinner "⚡ Processing with Llama-3 on Groq...";
      ApiCall "gsk_key" model_name system_message (prompt "A uses B.") 0 "json_object";
      StMetric "Concepts Found" (length (nodes G));
      StMetric "Connections" (length (edges G));
      StSubheader "Interactive Graph Result:";
      ComponentsHtml "<html>" 650], Ret tt).
Proof.
  apply (graph_is_shown (fun _ => None) (fun _ _ _ => inr [Some "{...}"])
           (fun _ => inr scenario1) (fun _ => "<html>")
           "gsk_key" "A uses B." "{...}" [] scenario1).
  - reflexivity.
  - reflexivity.
  - reflexivity.
  - reflexivity.
  - vm_compute. discriminate.
Defined.

(** X14: when the extraction succeeds with an object that has one of the
    two keys, and no concept is declared and the guard skips every
    relationship, the run shows the notice that no concept was found and
    renders nothing. *)
Theorem no_concept_notice
    (gmc : Graph -> option (list (list string)))
    (chat : string -> string -> string -> string + list (option string))
    (json : string -> string + ExtractionResult)
    (render : Graph -> string)
    (api_key text content : string) (rest : list (option string))
    (data : ExtractionResult) :
  truthy api_key = true ->
  truthy (strip text) = true ->
  chat api_key system_message (prompt text) = inr (Some content :: rest) ->
  json content = inr data ->
  data_truthy data = true ->
  get_concepts data = [] ->
  (forall rel, In rel (get_relationships data) -> endpoints rel = None) ->
  main gmc chat json render api_key text true
  = ([StSpinner "⚡ Processing with Llama-3 on Groq...";
      ApiCall api_key model_name system_message (prompt text) 0 "json_object";
      StWarning "No concepts found in the text. Try a different text."], Ret tt).
Proof.
  intros Hkey Htext Hc Hj Ht Hcs Hrels.
  destruct (extract_cases chat json text api_key)
    as [(data' & c & r & Hc' & Hj' & Hx) | (e & Hno & _)].
  2: { exfalso. apply (Hno content rest data Hc Hj). }
  rewrite Hc in Hc'. inversion Hc'; subst c r.
  rewrite Hj in Hj'. inversion Hj'; subst data'.
  assert (Hz : Nat.ltb 0 (number_of_nodes (create_networkx_graph gmc data)) = false).
  { apply Nat.ltb_ge. apply Nat.le_0_r.
    rewrite number_of_nodes_length, length_zero_iff_nil, nodes_create_order.
    apply first_seen_nil. rewrite Hcs. simpl.
    induction (get_relationships data) as [| rel rels IH]; simpl; auto.
    unfold endpoint_list at 1. rewrite (Hrels rel) by now left.
    simpl. apply IH. intros. apply Hrels. now right. }
  unfold main. rewrite Hkey, Htext. cbn [negb]. rewrite Hx.
  cbv [bind emit ret]. rewrite Ht, Hz. reflexivity.
Qed.

Lemma no_concept_notice_witness :
  let data := mkData (Some []) (Some [mkRel (Some "A") None (Some "uses")]) in
  main (fun _ => None) (fun _ _ _ => inr [Some "{...}"]) (fun _ => inr data)
    (fun _ => "<html>") "gsk_key" "A uses." true
  = ([StSpinner "⚡ Processing with Llama-3 on Groq...";
      ApiCall "gsk_key" model_name system_message (prompt "A uses.") 0 "json_object";
      StWarning "No concepts found in the text. Try a different text."], Ret tt).
Proof.
  intros data.
  apply (no_concept_notice (fun _ => None) (fun _ _ _ => inr [Some "{...}"])
           (fun _ => inr data) (fun _ => "<html>")
           "gsk_key" "A uses." "{...}" [] data).
  - reflexivity.
  - reflexivity.
  - reflexivity.
  - reflexivity.
  - reflexivity.
  - reflexivity.
  - intros rel [<- | []]. reflexivity.
Defined.

(** X15: when the content parses to the empty object, the run shows
    nothing after the call: no error, no notice, no graph. *)
Theorem empty_object_is_silent
    (gmc : Graph -> option (list (list string)))
    (chat : string -> string -> string -> string + list (option string))
    (json : string -> string + ExtractionResult)
    (render : Graph -> string)
    (api_key text content : string) (rest : list (option string)) :
  truthy api_key = true ->
  truthy (strip text) = true ->
  chat api_key system_message (prompt text) = inr (Some content :: rest) ->
  json content = inr (mkData None None) ->
  main gmc chat json render api_key text true
  = ([StSpinner "⚡ Processing with Llama-3 on Groq...";
      ApiCall api_key model_name system_message (prompt text) 0 "json_object"],
     Ret tt).
Proof.
  intros Hkey Htext Hc Hj.
  destruct (extract_cases chat json text api_key)
    as [(data' & c & r & Hc' & Hj' & Hx) | (e & Hno & _)].
  2: { exfalso. apply (Hno content rest (mkData None None) Hc Hj). }
  rewrite Hc in Hc'. inversion Hc'; subst c r.
  rewrite Hj in Hj'. inversion Hj'; subst data'.
  unfold main. rewrite Hkey, Htext. cbn [negb]. rewrite Hx. reflexivity.
Qed.

Lemma empty_object_is_silent_witness :
  main (fun _ => None) (fun _ _ _ => inr [Some "{}"])
    (fun _ => inr (mkData None None)) (fun _ => "<html>") "gsk_key" "Hello." true
  = ([StSpinner "⚡ Processing with Llama-3 on Groq...";
      ApiCall "gsk_key" model_name system_message (prompt "Hello.") 0 "json_object"],
     Ret tt).
Proof.
  apply (empty_object_is_silent (fun _ => None) (fun _ _ _ => inr [Some "{}"])
           (fun _ => inr (mkData None None)) (fun _ => "<html>")
           "gsk_key" "Hello." "{}" []).
  - reflexivity.
  - reflexivity.
  - reflexivity.
  - reflexivity.
Defined.

(** X16: a run ends by [st.stop()] exactly when there is no key; with a
    key it returns normally, whatever the provider and the parser do. *)
Theorem stops_only_without_key
    (gmc : Graph -> option (list (list string)))
    (chat : string -> string -> string -> string + list (option string))
    (json : string -> string + ExtractionResult)
    (render : Graph -> string)
    (api_key text : string) (button : bool) :
  snd (main gmc chat json render api_key text button)
  = if truthy api_key then Ret tt else Stop.
Proof.
  unfold main.
  destruct (truthy api_key) eqn:Hkey; [| reflexivity].
  destruct button; [| reflexivity].
  destruct (truthy (strip text)) eqn:Htext; [| reflexivity].
  cbn [negb].
  destruct (extract_cases chat json text api_key)
    as [(data & c & r & _ & _ & Hx) | (e & _ & Hx)];
    rewrite Hx; cbv [bind emit ret]; [| reflexivity].
  destruct (data_truthy data); [| reflexivity].
  destruct (Nat.ltb 0 (number_of_nodes (create_networkx_graph gmc data)));
    reflexivity.
Qed.

(** X17: the renderer is never given an empty graph: whenever a run shows
    rendered markup, it is the markup of the graph built from the parsed
    data, that graph has a node, and the markup is shown 650 high. *)
Theorem never_renders_an_empty_graph
    (gmc : Graph -> option (list (list string)))
    (chat : string -> string -> string -> string + list (option string))
    (json : string -> string + ExtractionResult)
    (render : Graph -> string)
    (api_key text : string) (button : bool) (html : string) (height : nat) :
  In (ComponentsHtml html height)
     (fst (main gmc chat json render api_key text button)) ->
  height = 650
  /\ exists data,
      snd (extract_knowledge_graph chat json text api_key) = Ret (Some data)
      /\ html = render (create_networkx_graph gmc data)
      /\ nodes (create_networkx_graph gmc data) <> [].
Proof.
  intros H. unfold main in H.
  destruct (truthy api_key) eqn:Hkey; cbn [negb] in H.
  2: { cbv [bind emit ret] in H. cbn [fst app In] in H.
       destruct H as [H | []]. discriminate. }
  destruct button.
  2: { cbv [ret] in H. cbn [fst In] in H. destruct H. }
  destruct (truthy (strip text)) eqn:Htext; cbn [negb] in H.
  2: { cbv [emit] in H. cbn [fst In] in H. destruct H as [H | []]. discriminate. }
  destruct (extract_cases chat json text api_key)
    as [(data & c & r & _ & _ & Hx) | (e & _ & Hx)];
    rewrite Hx in H; cbv [bind emit ret] in H.
  2: { cbn [fst app In] in H.
       destruct H as [H | [H | [H | []]]]; discriminate. }
  destruct (data_truthy data).
  2: { cbn [fst app In] in H. destruct H as [H | [H | []]]; discriminate. }
  destruct (Nat.ltb 0 (number_of_nodes (create_networkx_graph gmc data))) eqn:Hpos.
  2: { cbn [fst app In] in H.
       destruct H as [H | [H | [H | []]]]; discriminate. }
  cbn [fst app In] in H.
  destruct H as [H | [H | [H | [H | [H | [H | []]]]]]]; try discriminate.
  inversion H; subst. split; [reflexivity |].
  exists data. rewrite Hx. split; [reflexivity |]. split; [reflexivity |].
  apply Nat.ltb_lt in Hpos. rewrite number_of_nodes_length in Hpos.
  intros E. rewrite E in Hpos. simpl in Hpos. lia.
Qed.

Lemma never_renders_an_empty_graph_witness :
  650 = 650
  /\ exists data,
      snd (extract_knowledge_graph (fun _ _ _ => inr [Some "{...}"])
             (fun _ => inr scenario1) "A uses B." "gsk_key") = Ret (Some data)
      /\ "<html>" = (fun _ : Graph => "<html>") (create_networkx_graph (fun _ => None) data)
      /\ nodes (create_networkx_graph (fun _ => None) data) <> [].
Proof.
  apply (never_renders_an_empty_graph (fun _ => None)
           (fun _ _ _ => inr [Some "{...}"]) (fun _ => inr scenario1)
           (fun _ => "<html>") "gsk_key" "A uses B." true "<html>" 650).
  vm_compute. auto 10.
Defined.

(** X18: every call to the provider carries the key of the run, which is
    not empty, the fixed model name and system message, the prompt built
    from the text, temperature 0 and the JSON response format; it is made
    only after the button was pressed on a text that is not blank. *)
Theorem what_is_sent
    (gmc : Graph -> option (list (list string)))
    (chat : string -> string -> string -> string + list (option string))
    (json : string -> string + ExtractionResult)
    (render : Graph -> string)
    (api_key text : string) (button : bool)
    (k m sys usr fmt : string) (temperature : nat) :
  In (ApiCall k m sys usr temperature fmt)
     (fst (main gmc chat json render api_key text button)) ->
  k = api_key /\ api_key <> "" /\ button = true /\ strip text <> ""
  /\ m = "llama-3.3-70b-versatile" /\ sys = system_message
  /\ usr = prompt text /\ temperature = 0 /\ fmt = "json_object".
Proof.
  intros H. unfold main in H.
  destruct (truthy api_key) eqn:Hkey; cbn [negb] in H.
  2: { cbv [bind emit ret] in H. cbn [fst app In] in H.
       destruct H as [H | []]. discriminate. }
  destruct button.
  2: { cbv [ret] in H. cbn [fst In] in H. destruct H. }
  destruct (truthy (strip text)) eqn:Htext; cbn [negb] in H.
  2: { cbv [emit] in H. cbn [fst In] in H. destruct H as [H | []]. discriminate. }
  assert (Hk : api_key <> "").
  { unfold truthy in Hkey. apply negb_true_iff, String.eqb_neq in Hkey. exact Hkey. }
  assert (Ht : strip text <> "").
  { unfold truthy in Htext. apply negb_true_iff, String.eqb_neq in Htext. exact Htext. }
  assert (Hcall : forall e : Event,
             e = ApiCall k m sys usr temperature fmt ->
             e = ApiCall api_key model_name system_message (prompt text) 0 "json_object" ->
             k = api_key /\ api_key <> "" /\ true = true /\ strip text <> ""
             /\ m = "llama-3.3-70b-versatile" /\ sys = system_message
             /\ usr = prompt text /\ temperature = 0 /\ fmt = "json_object").
  { intros e E1 E2. rewrite E1 in E2. inversion E2; subst. repeat split; auto. }
  destruct (extract_cases chat json text api_key)
    as [(data & c & r & _ & _ & Hx) | (e & _ & Hx)];
    rewrite Hx in H; cbv [bind emit ret] in H.
  2: { cbn [fst app In] in H.
       destruct H as [H | [H | [H | []]]]; try discriminate.
       eapply Hcall; [reflexivity | symmetry; exact H]. }
  destruct (data_truthy data).
  2: { cbn [fst app In] in H. destruct H as [H | [H | []]]; try discriminate.
       eapply Hcall; [reflexivity | symmetry; exact H]. }
  destruct (Nat.ltb 0 (number_of_nodes (create_networkx_graph gmc data))).
  - cbn [fst app In] in H.
    destruct H as [H | [H | [H | [H | [H | [H | []]]]]]]; try discriminate.
    eapply Hcall; [reflexivity | symmetry; exact H].
  - cbn [fst app In] in H.
    destruct H as [H | [H | [H | []]]]; try discriminate.
    eapply Hcall; [reflexivity | symmetry; exact H].
Qed.

Lemma what_is_sent_witness :
  "gsk_key" = "gsk_key" /\ "gsk_key" <> "" /\ true = true /\ strip "A uses B." <> ""
  /\ model_name = "llama-3.3-70b-versatile" /\ system_message = system_message
  /\ prompt "A uses B." = prompt "A uses B." /\ 0 = 0 /\ "json_object" = "json_object".
Proof.
  apply (what_is_sent (fun _ => None) (fun _ _ _ => inl "Connection error.")
           (fun _ => inl "") (fun _ => "") "gsk_key" "A uses B." true
           "gsk_key" model_name system_message (prompt "A uses B.") "json_object" 0).
  vm_compute. auto.
Defined.

(** ** The credential lookup *)

(** X19: [get_groq_api_key] returns the first value that is not empty among
    the stored secret, the environment variable and the text typed in the
    sidebar, in that order; a secrets store that raises counts as a store
    without the key; the sidebar field is shown exactly when neither the
    secret nor the variable is set. *)
Theorem key_lookup_order (secrets : string + option string)
    (env : option string) (typed : string) :
  let secret := match secrets with inr (Some v) => v | _ => "" end in
  let variable := match env with Some v => v | None => "" end in
  get_groq_api_key secrets env typed
  = if truthy secret then (secret, [])
    else if truthy variable then (variable, [])
    else (typed, sidebar_prompt).
Proof.
  cbv zeta. unfold get_groq_api_key, falsy.
  destruct secrets as [e | [v |]]; cbn [negb truthy String.eqb];
    try (destruct env as [w |]; [destruct (truthy w) | ]; reflexivity).
  destruct (truthy v) eqn:Hv; cbn [negb].
  - now rewrite Hv.
  - destruct env as [w |]; [destruct (truthy w) | ]; reflexivity.
Qed.

(** X20: with no secret, no environment variable and nothing typed, the
    run shows the sidebar field and the warning, then stops: whatever the
    text and the button, nobody is called and nothing else is shown. *)
Theorem no_key_blocks_the_run
    (gmc : Graph -> option (list (list string)))
    (chat : string -> string -> string -> string + list (option string))
    (json : string -> string + ExtractionResult)
    (render : Graph -> string)
    (secrets : string + option string) (env : option string)
    (text : string) (button : bool) :
  (forall v, secrets = inr (Some v) -> v = "") ->
  (forall v, env = Some v -> v = "") ->
  main_with_lookup gmc chat json render secrets env "" text button
  = (sidebar_prompt,
     ([StWarning "⬅️ Please enter your Groq API Key in the sidebar to start."],
      Stop)).
Proof.
  intros Hs He. unfold main_with_lookup. rewrite get_groq_api_key_order.
  assert (E1 : truthy (match secrets with inr (Some v) => v | _ => "" end) = false).
  { destruct secrets as [e | [v |]]; auto. now rewrite (Hs v eq_refl). }
  assert (E2 : truthy (match env with Some v => v | None => "" end) = false).
  { destruct env as [v |]; auto. now rewrite (He v eq_refl). }
  rewrite E1, E2. reflexivity.
Qed.

Lemma no_key_blocks_the_run_witness :
  main_with_lookup (fun _ => None) (fun _ _ _ => inr []) (fun _ => inl "")
    (fun _ => "") (inl "No secrets found.") (Some "") "" "A uses B." true
  = (sidebar_prompt,
     ([StWarning "⬅️ Please enter your Groq API Key in the sidebar to start."],
      Stop)).
Proof.
  apply (no_key_blocks_the_run (fun _ => None) (fun _ _ _ => inr [])
           (fun _ => inl "") (fun _ => "")
           (inl "No secrets found.") (Some "") "A uses B." true).
  - discriminate.
  - intros v E. inversion E. reflexivity.
Defined.

(** ** Colours of overlapping or partial communities *)

(** X21: when community detection returns, a node takes the colour of the
    last community that contains it, at that community's index modulo 6;
    a node that no community contains takes the default colour. *)
Theorem last_community_colors_the_node
    (gmc : Graph -> option (list (list string)))
    (data : ExtractionResult) (communities : list (list string)) (n : string) :
  let G := create_networkx_graph gmc data in
  gmc (build_structure data) = Some communities ->
  In n (nodes G) ->
  (forall before comm after,
      communities = before ++ comm :: after ->
      In n comm ->
      (forall c, In c after -> ~ In n c) ->
      node_color G n = Some (nth (length before mod 6) colors ""))
  /\ ((forall c, In c communities -> ~ In n c) ->
      node_color G n = Some default_color).
Proof.
  cbv zeta. intros Hrun Hn. rewrite nodes_create in Hn.
  rewrite node_color_create by exact Hn.
  unfold compute_node_colors. rewrite Hrun. split.
  - intros before comm after -> Hin Hafter.
    rewrite color_communities_app. simpl.
    rewrite color_communities_outside by now apply not_in_concat.
    rewrite get_paint. apply mem_iff in Hin. now rewrite Hin.
  - intros Hnone.
    rewrite color_communities_outside by now apply not_in_concat.
    reflexivity.
Qed.

Lemma last_community_colors_the_node_witness :
  let overlapping := fun _ : Graph => Some [["A"; "B"]; ["B"]] in
  node_color (create_networkx_graph overlapping scenario1) "B"
  = Some (nth (length [["A"; "B"]] mod 6) colors "").
Proof.
  apply (proj1 (last_community_colors_the_node
                  (fun _ => Some [["A"; "B"]; ["B"]]) scenario1
                  [["A"; "B"]; ["B"]] "B" eq_refl
                  ltac:(vm_compute; auto))
           [["A"; "B"]] ["B"] []).
  - reflexivity.
  - simpl. auto.
  - intros c [].
Defined.

(** ** Blank text, white space of every kind *)


